(** * DarkSirensStat: galaxy catalogues and their completion

    A shallow embedding of [DarkSirensStat/galCat.py] (classes [GalCat] and
    [GalCompleted]) and of [parmap] from [Xi0Stat/globals.py].

    numpy arrays are lists, a 2-d array is a list of rows.  The code is
    written once, over an interface of the arithmetic it uses ([Arith]),
    and read at two instances:
    - [float_arith]: IEEE binary64, the arithmetic numpy runs, where
      [0/0] is NaN and NaN propagates;
    - [real_arith]: the real numbers, for the algebraic identities.

    Library code that is not part of the repository (healpy's [ang2pix],
    the [keelin] module, the cosmology behind the volume prior) is the
    interface [External].  A python exception is the [Raise] case of
    [result]. *)

From Stdlib Require Import Reals Lra Floats ZArith List Permutation Lia String.
From stdpp Require Import gmap.
Import ListNotations.

Set Warnings "-inexact-float,-abstract-large-number".

(** ** Arithmetic *)

Class Arith (A : Type) := {
  azero : A;
  aone : A;
  aadd : A -> A -> A;
  asub : A -> A -> A;
  amul : A -> A -> A;
  adiv : A -> A -> A;
  (** [x < y] and [x <= y]; [x >= y] is [aleb y x]. *)
  altb : A -> A -> bool;
  aleb : A -> A -> bool;
  (** [np.exp] *)
  aexp : A -> A;
  (** an integer count read as a number, as in [sum / len] *)
  of_nat : nat -> A;
  (** the literals [1e-9], [0.05] and [2e-3] of galCat.py *)
  lit_1e_9 : A;
  lit_0_05 : A;
  lit_2e_3 : A
}.

Declare Scope arith_scope.
Delimit Scope arith_scope with ar.
Infix "+" := aadd : arith_scope.
Infix "-" := asub : arith_scope.
Infix "*" := amul : arith_scope.
Infix "/" := adiv : arith_scope.

(** IEEE binary64.  [np.exp] is libm's, taken as a parameter. *)
Definition float_arith (fexp : float -> float) : Arith float := {|
  azero := 0%float;
  aone := 1%float;
  aadd := PrimFloat.add;
  asub := PrimFloat.sub;
  amul := PrimFloat.mul;
  adiv := PrimFloat.div;
  altb := PrimFloat.ltb;
  aleb := PrimFloat.leb;
  aexp := fexp;
  of_nat := fun n => PrimFloat.of_uint63 (Uint63.of_Z (Z.of_nat n));
  lit_1e_9 := 1e-9%float;
  lit_0_05 := 0.05%float;
  lit_2e_3 := 2e-3%float
|}.

Definition Rltb (x y : R) : bool := if Rlt_dec x y then true else false.
Definition Rleb (x y : R) : bool := if Rle_dec x y then true else false.

(** Exact real arithmetic. *)
#[export] Instance real_arith : Arith R := {|
  azero := 0%R;
  aone := 1%R;
  aadd := Rplus;
  asub := Rminus;
  amul := Rmult;
  adiv := Rdiv;
  altb := Rltb;
  aleb := Rleb;
  aexp := exp;
  of_nat := INR;
  lit_1e_9 := (1 / 1000000000)%R;
  lit_0_05 := (5 / 100)%R;
  lit_2e_3 := (2 / 1000)%R
|}.

(** ** Exceptions *)

Inductive exn := ValueError | AssertionError.

Inductive result (T : Type) :=
| Ok (v : T)
| Raise (e : exn).
Arguments Ok {T} v.
Arguments Raise {T} e.

(** ** Arrays *)

Section Arrays.
Context {A : Type} {AR : Arith A}.
Local Open Scope arith_scope.

(** [np.maximum], [np.minimum] and [np.clip(x, a_min, a_max)] on one
    entry. *)
Definition amax (x y : A) : A := if altb x y then y else x.
Definition amin (x y : A) : A := if altb y x then y else x.
Definition clip (x a_min a_max : A) : A := amin (amax x a_min) a_max.

Definition asum (l : list A) : A := fold_left aadd l azero.

(** [np.mean]: the sum over all the entries by their number; on an
    array with no entry that is [0/0]. *)
Definition mean (l : list A) : A := asum l / of_nat (length l).

(** [df[mask]], [arr[mask]]: the entries whose mask is [true]. *)
Fixpoint select_mask {T} (mask : list bool) (l : list T) : list T :=
  match mask, l with
  | m :: mask', x :: l' =>
      if m then x :: select_mask mask' l' else select_mask mask' l'
  | _, _ => []
  end.

(** Entrywise operations on two arrays of one shape. *)
Fixpoint zip_with {T U V} (f : T -> U -> V) (l1 : list T) (l2 : list U)
  : list V :=
  match l1, l2 with
  | x :: l1', y :: l2' => f x y :: zip_with f l1' l2'
  | _, _ => []
  end.

Definition mat_zip (f : A -> A -> A) (m1 m2 : list (list A))
  : list (list A) :=
  zip_with (zip_with f) m1 m2.

Definition mat_map (f : A -> A) (m : list (list A)) : list (list A) :=
  map (map f) m.

(** [df.iloc[start:stop]] *)
Definition iloc {T} (start stop : nat) (l : list T) : list T :=
  firstn (stop - start) (skipn start l).
End Arrays.

(** ** The galaxy table *)

Section Table.
Context {A : Type}.

(** One row of a catalogue's DataFrame. *)
Record Gal := mkGal {
  theta : A;
  phi : A;
  z : A;
  z_lower : A;
  z_upper : A;
  z_lowerbound : A;
  z_upperbound : A;
  w : A
}.

(** A DataFrame: its rows, and the cached pixel columns
    ["pix" + str(nside)], keyed by [nside], each as long as [rows]. *)
Record Table := mkTable {
  rows : list Gal;
  pixcols : gmap N (list Z)
}.

(** [pixname in df] *)
Definition has_pix (nside : N) (df : Table) : bool :=
  match pixcols df !! nside with Some _ => true | None => false end.

(** [df[pixname].to_numpy()] *)
Definition get_pix (nside : N) (df : Table) : list Z :=
  default [] (pixcols df !! nside).

(** [df.loc[:, pixname] = col] *)
Definition set_pix (nside : N) (col : list Z) (df : Table) : Table :=
  {| rows := rows df; pixcols := <[nside := col]> (pixcols df) |}.

(** [df[mask]]: a new frame with the selected rows of every column. *)
Definition take_rows (mask : list bool) (df : Table) : Table :=
  {| rows := select_mask mask (rows df);
     pixcols := select_mask mask <$> pixcols df |}.
End Table.
Arguments Gal A : clear implicits.
Arguments Table A : clear implicits.

(** ** Library code outside the repository *)

(** Modelled from the spec: healpy, astropy, scipy and the [keelin]
    module are not part of the repository, so what the code calls of
    them is a parameter.  The spec has "discretize(grid, N, P) -> mass
    per grid cell: returns, for a batch of galaxies, a matrix of shape
    (batch, grid length)" and "for each row, convolves its 5-quantile
    distribution ... produces 5 corrected quantile values per row": both
    work row by row, and each is given by what it returns for one row. *)
Class External (A : Type) := {
  (** [hp.ang2pix(nside, theta, phi)] at one position *)
  ang2pix : N -> A -> A -> Z;
  (** the row of one galaxy in
      [bounded_keelin_3_discrete_probabilities(zGrid, 0.16, d.z_lower,
      d.z, d.z_upper, d.z_lowerbound, d.z_upperbound, N=40, P=0.99999)] *)
  bounded_keelin_3_discrete_probabilities : list A -> Gal A -> list A;
  (** [func]: the interpolated volume jacobian on the grid up to
      [1.4 * zmax] *)
  vol_jacobian : A -> A -> A;
  (** the row of one galaxy in
      [convolve_bounded_keelin_3(func, 0.16, l, m, u, ll, uu, N=1000)] *)
  convolve_bounded_keelin_3 : (A -> A) -> Gal A -> A * A * A * A * A
}.

(** ** class GalCat *)

Section GalCat.
Context {A : Type} {AR : Arith A} {EX : External A}.
Local Open Scope arith_scope.

(** [self.selectedData] is either the very object [self.data] (as
    [__init__] leaves it) or a frame of its own, made by [df[mask]]. *)
Inductive Selection :=
| SelData
| SelCopy (df : Table A).

(** Modelled from the spec: the completeness object of a catalogue is
    not part of the repository; the spec has "get(theta, phi, z,
    oneZPerAngle) -> probability" with the two ways of broadcasting of
    [completeness_grid] and [completeness_paired] below, so it is given
    by [get] at one position and redshift, beside its
    [_comovingDensityGoal]. *)
Record Completeness := mkCompleteness {
  get : A -> A -> A -> A;
  comovingDensityGoal : A
}.

Record GalCat := mkGalCat {
  data : Table A;
  selectedData : Selection;
  _completeness : Completeness;
  (** Not an attribute of the class: the resolutions for which
      [hp.ang2pix] was run over a frame of this catalogue, oldest
      first. *)
  ang2pix_calls : list N
}.

(** [__init__] after [load]: the selection is the table itself. *)
Definition GalCat_init (df : Table A) (compl : Completeness) : GalCat :=
  {| data := df; selectedData := SelData; _completeness := compl;
     ang2pix_calls := [] |}.

(** [get_data]: the frame [self.selectedData]. *)
Definition get_data (c : GalCat) : Table A :=
  match selectedData c with
  | SelData => data c
  | SelCopy df => df
  end.

(** [hp.ang2pix(nside, df.theta, df.phi)] *)
Definition ang2pix_col (nside : N) (df : Table A) : list Z :=
  map (fun g => ang2pix nside (theta g) (phi g)) (rows df).

(** One entry of [self.data.isin({pixname: pixels}).any(1)]. *)
Definition in_pixels (pixels : list Z) (p : Z) : bool :=
  existsb (Z.eqb p) pixels.

(** [select_area]: the pixel column is computed on [self.data] unless
    it is there, and the selection becomes the new frame
    [self.data[mask]]. *)
Definition select_area (pixels : list Z) (nside : N) (c : GalCat) : GalCat :=
  let '(data', calls') :=
    if has_pix nside (data c) then (data c, ang2pix_calls c)
    else (set_pix nside (ang2pix_col nside (data c)) (data c),
          ang2pix_calls c ++ [nside]) in
  let mask := map (in_pixels pixels) (get_pix nside data') in
  {| data := data';
     selectedData := SelCopy (take_rows mask data');
     _completeness := _completeness c;
     ang2pix_calls := calls' |}.

(** [set_z_range_for_selection]: the selection becomes the new frame
    [self.selectedData[(z >= zMin) & (z < zMax)]]. *)
Definition set_z_range_for_selection (zMin zMax : A) (c : GalCat) : GalCat :=
  let d := get_data c in
  let mask := map (fun g => aleb zMin (z g) && altb (z g) zMax) (rows d) in
  {| data := data c;
     selectedData := SelCopy (take_rows mask d);
     _completeness := _completeness c;
     ang2pix_calls := ang2pix_calls c |}.

Definition count_selection (c : GalCat) : nat := length (rows (get_data c)).

(** [completeness(theta, phi, z, oneZPerAngle)] at one position and
    redshift. *)
Definition completeness (c : GalCat) (th ph zz : A) : A :=
  get (_completeness c) th ph zz + lit_1e_9.

(** [oneZPerAngle=False]: every redshift of the grid at every
    position, one row per position. *)
Definition completeness_grid (c : GalCat) (ths phs zGrid : list A)
  : list (list A) :=
  zip_with (fun th ph => map (completeness c th ph) zGrid) ths phs.

(** [oneZPerAngle=True]: the three arrays read position by position. *)
Definition completeness_paired (c : GalCat) (ths phs zs : list A) : list A :=
  zip_with (fun tp zz => completeness c (fst tp) (snd tp) zz)
    (combine ths phs) zs.

(** The step [if not pixname in c.get_data(): d.loc[:, pixname] = ...]
    of the aggregator, where [d = c.get_data()]: the column is written
    to the frame the selection is. *)
Definition cache_pix (nside : N) (c : GalCat) : GalCat :=
  if has_pix nside (get_data c) then c
  else
    let col := ang2pix_col nside (get_data c) in
    {| data := match selectedData c with
               | SelData => set_pix nside col (data c)
               | SelCopy _ => data c
               end;
       selectedData := match selectedData c with
                       | SelData => SelData
                       | SelCopy d => SelCopy (set_pix nside col d)
                       end;
       _completeness := _completeness c;
       ang2pix_calls := ang2pix_calls c ++ [nside] |}.
End GalCat.
Arguments Selection A : clear implicits.
Arguments Completeness A : clear implicits.
Arguments GalCat A : clear implicits.

(** ** class GalCompleted *)

Section GalCompleted.
Context {A : Type} {AR : Arith A} {EX : External A}.
Local Open Scope arith_scope.

Record GalCompleted := mkGalCompleted {
  _galcats : list (GalCat A);
  _catweights : list A;
  _additive : bool;
  _multiplicative : bool
}.

(** [__init__(completionType = 'mix')]: both flags are [False] unless
    the string is ['add'] or ['mult']. *)
Definition GalCompleted_init (completionType : string) : GalCompleted :=
  {| _galcats := [];
     _catweights := [];
     _additive := if String.eqb completionType "add" then true else false;
     _multiplicative :=
       if String.eqb completionType "add" then false
       else if String.eqb completionType "mult" then true else false |}.

Definition add_cat (cat : GalCat A) (weight : A) (self : GalCompleted)
  : GalCompleted :=
  {| _galcats := _galcats self ++ [cat];
     _catweights := _catweights self ++ [weight];
     _additive := _additive self;
     _multiplicative := _multiplicative self |}.

(** The aggregator with its catalogues as a loop over them left them. *)
Definition set_galcats (cats : list (GalCat A)) (self : GalCompleted)
  : GalCompleted :=
  {| _galcats := cats;
     _catweights := _catweights self;
     _additive := _additive self;
     _multiplicative := _multiplicative self |}.

(** [select_area], [set_z_range_for_selection] and [count_selection]
    of the aggregator: those of every catalogue in turn. *)
Definition GalCompleted_select_area (pixels : list Z) (nside : N)
  (self : GalCompleted) : GalCompleted :=
  set_galcats (map (select_area pixels nside) (_galcats self)) self.

Definition GalCompleted_set_z_range_for_selection (zMin zMax : A)
  (self : GalCompleted) : GalCompleted :=
  set_galcats (map (set_z_range_for_selection zMin zMax) (_galcats self)) self.

Definition GalCompleted_count_selection (self : GalCompleted) : list nat :=
  map count_selection (_galcats self).

(** [confidence(compl)] on one entry. *)
Definition confidence (self : GalCompleted) (compl : A) : A :=
  if _multiplicative self then aone
  else if _additive self then compl
  else
    let confpower := lit_0_05 in
    let complb := clip compl lit_2e_3 aone in
    aexp (confpower * (aone - aone / complb)).

(** The interpolated confidence, the last branch of [confidence]. *)
Definition interpolated_confidence (compl : A) : A :=
  aexp (lit_0_05 * (aone - aone / clip compl lit_2e_3 aone)).

(** [zip(self._galcats, self._catweights)] *)
Definition cats_weights (self : GalCompleted) : list (GalCat A * A) :=
  combine (_galcats self) (_catweights self).

(** [self._additive and (len(self._galcats) == 1)] *)
Definition skip_completeness (self : GalCompleted) : bool :=
  _additive self && (length (_galcats self) =? 1)%nat.

(** The catalogues after a loop over [zip(...)] that updated the first
    of them in place. *)
Definition put_galcats (cats : list (GalCat A)) (self : GalCompleted)
  : GalCompleted :=
  set_galcats (cats ++ skipn (length cats) (_galcats self)) self.

(** *** get_inhom_contained *)

(** One turn of the loop of [get_inhom_contained] for the catalogue [c]
    of weight [wt], entered with [catweightTotal]: the catalogue after
    it, the arrays appended to [allpixels] and [allweights], and
    [catweightTotal] after it. *)
Definition inhom_contained_body (self : GalCompleted) (zGrid : list A)
  (nside : N) (c : GalCat A) (wt : A) (catweightTotal : A)
  : GalCat A * list Z * list (list A) * A :=
  let c' := cache_pix nside c in
  let d := get_data c' in
  let pixels := get_pix nside d in
  let weights :=
    map (fun g => map (fun k => k * w g)
                    (bounded_keelin_3_discrete_probabilities zGrid g))
        (rows d) in
  let '(weights, catweightTotal) :=
    if skip_completeness self then (weights, wt)
    else
      let compl :=
        completeness_grid c' (map theta (rows d)) (map phi (rows d)) zGrid in
      let weights := mat_zip adiv weights compl in
      let weights := mat_zip amul weights (mat_map (confidence self) compl) in
      let catweight := wt * mean (concat compl) in
      let weights := mat_map (fun x => x * catweight) weights in
      (weights, catweightTotal + catweight) in
  let weights :=
    mat_map (fun x => x / comovingDensityGoal (_completeness c')) weights in
  (c', pixels, weights, catweightTotal).

Fixpoint inhom_contained_loop (self : GalCompleted) (zGrid : list A)
  (nside : N) (cws : list (GalCat A * A)) (catweightTotal : A)
  : list (GalCat A) * list (list Z) * list (list (list A)) * A :=
  match cws with
  | [] => ([], [], [], catweightTotal)
  | (c, wt) :: rest =>
      let '(c', pixels, weights, tot) :=
        inhom_contained_body self zGrid nside c wt catweightTotal in
      let '(cats, allpixels, allweights, tot') :=
        inhom_contained_loop self zGrid nside rest tot in
      (c' :: cats, pixels :: allpixels, weights :: allweights, tot')
  end.

(** Returns the aggregator (its catalogues may have cached a pixel
    column) and [(pixels, weights)]; [np.vstack] of an empty list raises
    [ValueError]. *)
Definition get_inhom_contained (self : GalCompleted) (zGrid : list A)
  (nside : N) : GalCompleted * result (list Z * list (list A)) :=
  let '(cats, allpixels, allweights, catweightTotal) :=
    inhom_contained_loop self zGrid nside (cats_weights self) azero in
  (put_galcats cats self,
   match allweights with
   | [] => Raise ValueError
   | _ :: _ =>
       Ok (concat allpixels,
           mat_map (fun x => x / catweightTotal) (concat allweights))
   end).

(** *** get_inhom *)

Definition inhom_body (self : GalCompleted) (nside : N) (c : GalCat A)
  (wt : A) (catweightTotal : A) : GalCat A * list Z * list A * list A * A :=
  let c' := cache_pix nside c in
  let d := get_data c' in
  let pixels := get_pix nside d in
  let weights := map w (rows d) in
  let redshifts := map z (rows d) in
  let '(weights, catweightTotal) :=
    if skip_completeness self then (weights, wt)
    else
      let compl :=
        completeness_paired c' (map theta (rows d)) (map phi (rows d))
          redshifts in
      let weights := zip_with adiv weights compl in
      let weights := zip_with amul weights (map (confidence self) compl) in
      let catweight := wt * mean compl in
      let weights := map (fun x => x * catweight) weights in
      (weights, catweightTotal + catweight) in
  let weights :=
    map (fun x => x / comovingDensityGoal (_completeness c')) weights in
  (c', pixels, redshifts, weights, catweightTotal).

Fixpoint inhom_loop (self : GalCompleted) (nside : N)
  (cws : list (GalCat A * A)) (catweightTotal : A)
  : list (GalCat A) * list (list Z) * list (list A) * list (list A) * A :=
  match cws with
  | [] => ([], [], [], [], catweightTotal)
  | (c, wt) :: rest =>
      let '(c', pixels, redshifts, weights, tot) :=
        inhom_body self nside c wt catweightTotal in
      let '(cats, allpixels, allredshifts, allweights, tot') :=
        inhom_loop self nside rest tot in
      (c' :: cats, pixels :: allpixels, redshifts :: allredshifts,
       weights :: allweights, tot')
  end.

(** Returns the aggregator and [(pixels, redshifts, weights)];
    [np.hstack] of an empty list raises [ValueError]. *)
Definition get_inhom (self : GalCompleted) (nside : N)
  : GalCompleted * result (list Z * list A * list A) :=
  let '(cats, allpixels, allredshifts, allweights, catweightTotal) :=
    inhom_loop self nside (cats_weights self) azero in
  (put_galcats cats self,
   match allweights with
   | [] => Raise ValueError
   | _ :: _ =>
       Ok (concat allpixels, concat allredshifts,
           map (fun x => x / catweightTotal) (concat allweights))
   end).

(** *** eval_hom *)

(** The loop of [eval_hom], entered with [ret] and [catweightTotal].
    The arrays [theta], [phi] and [z] are of one length. *)
Fixpoint eval_hom_loop (self : GalCompleted) (ths phs zs : list A)
  (cws : list (GalCat A * A)) (ret : list A) (catweightTotal : A)
  : list A * A :=
  match cws with
  | [] => (ret, catweightTotal)
  | (c, wt) :: rest =>
      let compl := completeness_paired c ths phs zs in
      let retcat := map (fun x => aone - confidence self x) compl in
      let catweight := wt * mean compl in
      let retcat := map (fun x => x * catweight) retcat in
      eval_hom_loop self ths phs zs rest
        (zip_with aadd ret retcat) (catweightTotal + catweight)
  end.

Definition eval_hom (self : GalCompleted) (ths phs zs : list A) (MC : bool)
  : result (list A) :=
  if MC && negb (length ths =? length zs)%nat then Raise AssertionError
  else
    let '(ret, catweightTotal) :=
      eval_hom_loop self ths phs zs (cats_weights self)
        (repeat azero (length ths)) azero in
    Ok (map (fun x => x / catweightTotal) ret).
(** *** The weight of a catalogue in the average over the catalogues *)

(** [catweight = w*np.mean(completeness)] in [get_inhom], in
    [get_inhom_contained] and in [eval_hom], as functions of the
    catalogue and of its weight. *)
Definition catweight_inhom (c : GalCat A) (wt : A) : A :=
  let d := get_data c in
  wt * mean (completeness_paired c (map theta (rows d)) (map phi (rows d))
               (map z (rows d))).

Definition catweight_contained (zGrid : list A) (c : GalCat A) (wt : A) : A :=
  let d := get_data c in
  wt * mean (concat (completeness_grid c (map theta (rows d))
                       (map phi (rows d)) zGrid)).

Definition catweight_hom (ths phs zs : list A) (c : GalCat A) (wt : A) : A :=
  wt * mean (completeness_paired c ths phs zs).

(** [catweightTotal] after a loop that adds [catweight] for every
    catalogue, starting from 0. *)
Definition catweight_sum (catweight : GalCat A -> A -> A)
  (cws : list (GalCat A * A)) : A :=
  fold_left (fun tot cw => tot + catweight (fst cw) (snd cw)) cws azero.
End GalCompleted.
Arguments GalCompleted A : clear implicits.

(** ** The terms of the loops *)

Section Terms.
Context {A : Type} {AR : Arith A} {EX : External A}.
Local Open Scope arith_scope.

(** The weights that one turn of the loop of [get_inhom] appends when
    the completeness is evaluated. *)
Definition inhom_weights (self : GalCompleted A) (c : GalCat A) (wt : A)
  : list A :=
  let gs := rows (get_data c) in
  let compl := map (fun g => completeness c (theta g) (phi g) (z g)) gs in
  map (fun x => x / comovingDensityGoal (_completeness c))
    (map (fun x => x * catweight_inhom c wt)
       (zip_with amul (zip_with adiv (map w gs) compl)
          (map (confidence self) compl))).


(** The same for one turn of the loop of [get_inhom_contained]. *)
Definition inhom_contained_weights (self : GalCompleted A) (zGrid : list A)
  (c : GalCat A) (wt : A) : list (list A) :=
  let gs := rows (get_data c) in
  let compl := map (fun g => map (completeness c (theta g) (phi g)) zGrid) gs in
  mat_map (fun x => x / comovingDensityGoal (_completeness c))
    (mat_map (fun x => x * catweight_contained zGrid c wt)
       (mat_zip amul
          (mat_zip adiv
             (map (fun g => map (fun k => k * w g)
                              (bounded_keelin_3_discrete_probabilities zGrid g))
                  gs)
             compl)
          (mat_map (confidence self) compl))).


(** What [retcat] adds at a query point: the weight of the catalogue
    times one minus the confidence there. *)
Definition hom_term (self : GalCompleted A) (ths phs zs : list A)
  (th ph zz : A) (cw : GalCat A * A) : A :=
  (aone - confidence self (completeness (fst cw) th ph zz))
  * catweight_hom ths phs zs (fst cw) (snd cw).

End Terms.

(** ** parmap (globals.py) *)

Section Parmap.
Context {X B : Type}.

(** [enumerate(X)] *)
Definition enumerate (xs : list X) : list (nat * X) :=
  combine (seq 0 (length xs)) xs.

(** [sorted(res)] on pairs [(i, x)]: python compares the indices first,
    and the indices of [enumerate] are all different, so the second
    components are never compared.  The sort is stable. *)
Fixpoint insert_by_index (p : nat * B) (l : list (nat * B))
  : list (nat * B) :=
  match l with
  | [] => [p]
  | q :: l' =>
      if (fst p <=? fst q)%nat then p :: q :: l'
      else q :: insert_by_index p l'
  end.

Definition sorted (res : list (nat * B)) : list (nat * B) :=
  fold_right insert_by_index [] res.

(** The workers take [(i, x)] from [q_in] and put [(i, f(x))] on
    [q_out]; the parent reads [len(sent)] results from [q_out] in the
    order the workers finished, which is [completion] applied to the
    results in the order sent, and returns them sorted by [i]. *)
Definition parmap (completion : list (nat * B) -> list (nat * B))
  (f : X -> B) (xs : list X) : list B :=
  let sent := enumerate xs in
  let res := completion (map (fun ix => (fst ix, f (snd ix))) sent) in
  map snd (sorted res).
End Parmap.

(** ** GalCat.include_vol_prior *)

Section VolPrior.
Context {A : Type} {AR : Arith A} {EX : External A}.
Local Open Scope arith_scope.

Definition batchSize : nat := 10000.

(** [np.max] over a column: [ValueError] on an empty one. *)
Definition np_max (l : list A) : result A :=
  match l with
  | [] => Raise ValueError
  | x :: l' => Ok (fold_left amax l' x)
  end.

(** The rows [df.iloc[start:stop]] of batch [batchId]. *)
Definition batch_rows (df : Table A) (batchId nBatches : nat) : list (Gal A) :=
  let N := length (rows df) in
  let n := (N / nBatches)%nat in
  let start := (n * batchId)%nat in
  let stop := if (batchId =? nBatches - 1)%nat then N
              else (n * (batchId + 1))%nat in
  iloc start stop (rows df).

Definition convolve_batch (df : Table A) (func : A -> A)
  (batchId nBatches : nat) : list (A * A * A * A * A) :=
  map (convolve_bounded_keelin_3 func) (batch_rows df batchId nBatches).

(** [res]: the five corrected quantiles of every row, from [nBatches]
    batches run by [parmap] and stacked by [np.vstack]. *)
Definition vol_prior_res (completion : list (nat * list (A * A * A * A * A))
                                       -> list (nat * list (A * A * A * A * A)))
  (nBatches : nat) (df : Table A) : result (list (A * A * A * A * A)) :=
  match np_max (map z_upperbound (rows df)) with
  | Raise e => Raise e
  | Ok zmax =>
      let func := vol_jacobian zmax in
      match parmap completion (fun b => convolve_batch df func b nBatches)
              (seq 0 nBatches) with
      | [] => Raise ValueError
      | b :: bs => Ok (concat (b :: bs))
      end
  end.

(** One entry of [mask]. *)
Definition unfeasible (r : A * A * A * A * A) : bool :=
  let '(r0, r1, r2, r3, r4) := r in
  aleb r1 r0 || aleb r2 r1 || aleb r3 r2 || aleb r4 r3 || altb r0 azero.

(** The row after [df.z_lowerbound = res[:, 0]], ...,
    [df.z_upperbound = res[:, 4]]. *)
Definition set_quantiles (g : Gal A) (r : A * A * A * A * A) : Gal A :=
  let '(r0, r1, r2, r3, r4) := r in
  {| theta := theta g; phi := phi g;
     z := r2; z_lower := r1; z_upper := r3;
     z_lowerbound := r0; z_upperbound := r4;
     w := w g |}.

(** The five quantile columns of a row, in the order of [res]. *)
Definition quantiles_of (g : Gal A) : A * A * A * A * A :=
  (z_lowerbound g, z_lower g, z g, z_upper g, z_upperbound g).

(** [include_vol_prior] with the number of batches as an argument.
    Returns the frame that was passed, as the call leaves it, and the
    frame the call returns.  Assigning a column of another length than
    the frame raises [ValueError]. *)
Definition include_vol_prior_batches
  (completion : list (nat * list (A * A * A * A * A))
                -> list (nat * list (A * A * A * A * A)))
  (nBatches : nat) (df : Table A) : result (Table A * Table A) :=
  match vol_prior_res completion nBatches df with
  | Raise e => Raise e
  | Ok res =>
      let mask := map unfeasible res in
      if negb (length res =? length (rows df))%nat then Raise ValueError
      else
        let df' := {| rows := zip_with set_quantiles (rows df) res;
                      pixcols := pixcols df |} in
        Ok (df', take_rows (map negb mask) df')
  end.

Definition include_vol_prior
  (completion : list (nat * list (A * A * A * A * A))
                -> list (nat * list (A * A * A * A * A)))
  (df : Table A) : result (Table A * Table A) :=
  let nBatches := Nat.max (length (rows df) / batchSize) 1 in
  include_vol_prior_batches completion nBatches df.
End VolPrior.

(** ** Binary64 *)

(** None of the five quantiles of the row is NaN. *)
Definition no_nan (g : Gal float) : Prop :=
  is_nan (z_lowerbound g) = false /\ is_nan (z_lower g) = false /\
  is_nan (z g) = false /\ is_nan (z_upper g) = false /\
  is_nan (z_upperbound g) = false.

(** ** Example data *)

Section Examples.
Context {A : Type} {AR : Arith A}.

(** Stand-ins for the library code, to run the model on examples: the
    pixel is 0 for [theta < 1] and 1 otherwise, every galaxy has mass 1
    in every cell of the grid, and the convolution returns the quantiles
    it is given. *)
Definition example_external : External A := {|
  ang2pix := fun nside th ph => if altb th aone then 0%Z else 1%Z;
  bounded_keelin_3_discrete_probabilities :=
    fun zGrid g => map (fun _ => aone) zGrid;
  vol_jacobian := fun zmax x => x;
  convolve_bounded_keelin_3 :=
    fun func g => (z_lowerbound g, z_lower g, z g, z_upper g, z_upperbound g)
|}.

(** A galaxy at [theta = t] with quantiles [k, k+1, k+2, k+3, k+4] and
    weight 1. *)
Definition example_gal (t k : nat) : Gal A :=
  {| theta := of_nat t; phi := azero;
     z := of_nat (k + 2); z_lower := of_nat (k + 1); z_upper := of_nat (k + 3);
     z_lowerbound := of_nat k; z_upperbound := of_nat (k + 4);
     w := aone |}.

(** The same with [z_lower] and [z] exchanged: quantiles that are not
    increasing. *)
Definition example_gal_swapped (t k : nat) : Gal A :=
  {| theta := of_nat t; phi := azero;
     z := of_nat (k + 1); z_lower := of_nat (k + 2); z_upper := of_nat (k + 3);
     z_lowerbound := of_nat k; z_upperbound := of_nat (k + 4);
     w := aone |}.

Definition example_table (gs : list (Gal A)) : Table A :=
  {| rows := gs; pixcols := ∅ |}.

(** A completeness model that returns [v] everywhere, with density
    goal 1, and a catalogue just loaded with it. *)
Definition example_completeness (v : A) : Completeness A :=
  {| get := fun _ _ _ => v; comovingDensityGoal := aone |}.

Definition example_cat (gs : list (Gal A)) (v : A) : GalCat A :=
  GalCat_init (example_table gs) (example_completeness v).
End Examples.

(** ** Invariants of the frames *)

Section FrameInvariants.
Context {A : Type} {AR : Arith A} {EX : External A}.

(** Every cached pixel column of the frame is [hp.ang2pix] of the
    positions of its rows. *)
Definition pix_ok (df : Table A) : Prop :=
  forall nside col, pixcols df !! nside = Some col -> col = ang2pix_col nside df.

(** The same for the two frames of a catalogue. *)
Definition cat_ok (c : GalCat A) : Prop :=
  pix_ok (data c) /\ pix_ok (get_data c).
End FrameInvariants.

(** ** GalCompleted.total_completeness *)

Section TotalCompleteness.
Context {A : Type} {AR : Arith A}.
Local Open Scope arith_scope.

(** [total_completeness(theta, phi, z)] at one point: [res = 0], then
    [res += w*c.completeness(theta, phi, z)] over
    [zip(self._galcats, self._catweights)]. *)
Definition total_completeness (self : GalCompleted A) (th ph zz : A) : A :=
  fold_left (fun res cw => res + snd cw * completeness (fst cw) th ph zz)
    (cats_weights self) azero.
End TotalCompleteness.

(** ** Constants (globals.py) *)

(** [clight = 2.99792458*10**5], [l_CMB, b_CMB = (263.99, 48.26)] and
    [v_CMB = 369]. *)
Class Constants (A : Type) := {
  clight : A;
  l_CMB : A;
  b_CMB : A;
  v_CMB : A
}.

Definition float_constants : Constants float := {|
  clight := (2.99792458 * 100000)%float;
  l_CMB := 263.99%float;
  b_CMB := 48.26%float;
  v_CMB := 369%float
|}.

#[export] Instance real_constants : Constants R := {|
  clight := (299792458 / 100000000 * 10 ^ 5)%R;
  l_CMB := (26399 / 100)%R;
  b_CMB := (4826 / 100)%R;
  v_CMB := 369%R
|}.

(** ** GalCat.group_correction *)

Section GroupCorrection.
Context {A : Type} {AR : Arith A} {CO : Constants A}.
Local Open Scope arith_scope.

(** A row of [df]: the identifier [PGC], the column [which_z] (here
    [z_cosmo], the default), and the two columns that the call writes,
    [which_z+'_or'] and ['group_correction'].  The call assigns the
    whole of these two columns, whether the frame has them or not. *)
Record ZRow := mkZRow {
  PGC : Z;
  z_cosmo : A;
  z_cosmo_or : A;
  group_correction_col : Z
}.

(** A row of [df_groups]: a galaxy [PGC], the group [PGC1] it is in, and
    the velocity [HRV]. *)
Record GroupRow := mkGroupRow {
  g_PGC : Z;
  PGC1 : Z;
  HRV : A
}.

(** One entry of [col.isin(values)], on integer identifiers. *)
Definition isin (x : Z) (values : list Z) : bool := existsb (Z.eqb x) values.

(** [Series.mean()] of pandas skips the entries that are NaN, the
    entries that do not compare equal to themselves; on what is left it
    is the sum by the number. *)
Definition notna (x : A) : bool := aleb x x.

Definition series_mean (l : list A) : A := mean (List.filter notna l).

(** One entry of [a != b]: the two do not compare each at most the
    other (true when one of them is NaN). *)
Definition aneb (x y : A) : bool := negb (aleb x y && aleb y x).

(** The body of the loop for one [PGC]:
    [PGC1 = df_groups[df_groups['PGC']==PGC]['PGC1'].values[0]], where
    [.values[0]] raises [IndexError] on no row ([None]), and
    [z_group = df_groups[df_groups['PGC1']==PGC1].HRV.mean()/clight]. *)
Definition z_group (df_groups : list GroupRow) (pgc : Z) : option A :=
  match List.filter (fun r => Z.eqb (g_PGC r) pgc) df_groups with
  | [] => None
  | r :: _ =>
      Some (series_mean
              (map HRV (List.filter (fun r' => Z.eqb (PGC1 r') (PGC1 r))
                          df_groups))
            / clight)
  end.

(** [z_corr_arr] after the loop over [zs.PGC.values]. *)
Fixpoint z_corr_loop (df_groups : list GroupRow) (pgcs : list Z)
  : option (list A) :=
  match pgcs with
  | [] => Some []
  | pgc :: rest =>
      match z_group df_groups pgc with
      | None => None
      | Some zg =>
          match z_corr_loop df_groups rest with
          | None => None
          | Some arr => Some (zg :: arr)
          end
      end
  end.

Definition set_z_cosmo (v : A) (r : ZRow) : ZRow :=
  {| PGC := PGC r; z_cosmo := v; z_cosmo_or := z_cosmo_or r;
     group_correction_col := group_correction_col r |}.

(** [df.loc[mask, which_z] = values]: the entries of [values] go to the
    rows of the mask in order; another number of entries than of rows in
    the mask raises [ValueError] ([None]). *)
Fixpoint assign_masked (mask : list bool) (values : list A) (df : list ZRow)
  : option (list ZRow) :=
  match mask, df with
  | m :: mask', r :: df' =>
      if m then
        match values with
        | [] => None
        | v :: values' =>
            match assign_masked mask' values' df' with
            | None => None
            | Some out => Some (set_z_cosmo v r :: out)
            end
        end
      else
        match assign_masked mask' values df' with
        | None => None
        | Some out => Some (r :: out)
        end
  | _, _ => match values with [] => Some [] | _ :: _ => None end
  end.

(** [group_correction(df, df_groups)]: the frame [df] as the call leaves
    it, or [None] when the call raises. *)
Definition group_correction (df : list ZRow) (df_groups : list GroupRow)
  : option (list ZRow) :=
  let df :=
    map (fun r => {| PGC := PGC r; z_cosmo := z_cosmo r;
                     z_cosmo_or := z_cosmo r;
                     group_correction_col := group_correction_col r |}) df in
  let mask := map (fun r => isin (PGC r) (map g_PGC df_groups)) df in
  let zs := select_mask mask df in
  match z_corr_loop df_groups (map PGC zs) with
  | None => None
  | Some z_corr_arr =>
      match assign_masked mask z_corr_arr df with
      | None => None
      | Some df =>
          Some (map (fun r =>
                       {| PGC := PGC r; z_cosmo := z_cosmo r;
                          z_cosmo_or := z_cosmo_or r;
                          group_correction_col :=
                            if aneb (z_cosmo_or r) (z_cosmo r)
                            then 1%Z else 0%Z |}) df)
      end
  end.

(** What the call makes of one row: the redshift of its group if it is
    in one, the redshift it had in [which_z+'_or'], and the flag. *)
Definition corrected_z (df_groups : list GroupRow) (r : ZRow) : A :=
  match z_group df_groups (PGC r) with
  | Some zg => zg
  | None => z_cosmo r
  end.

Definition corrected_row (df_groups : list GroupRow) (r : ZRow) : ZRow :=
  {| PGC := PGC r;
     z_cosmo := corrected_z df_groups r;
     z_cosmo_or := z_cosmo r;
     group_correction_col :=
       if aneb (z_cosmo r) (corrected_z df_groups r) then 1%Z else 0%Z |}.
End GroupCorrection.
Arguments ZRow A : clear implicits.
Arguments GroupRow A : clear implicits.

(** ** The CMB frame: gal_to_eq and GalCat.CMB_correction *)

(** The functions of numpy that the two use, [np.pi], and the numbers
    written in them: [0.5], the 180 of [np.radians], and the degrees
    [122.93192], [27.128336] and [192.859508] of [gal_to_eq]. *)
Class Trig (A : Type) := {
  np_pi : A;
  np_sin : A -> A;
  np_cos : A -> A;
  np_arctan : A -> A;
  np_arcsin : A -> A;
  lit_0_5 : A;
  lit_180 : A;
  lit_122_93192 : A;
  lit_27_128336 : A;
  lit_192_859508 : A
}.

#[export] Instance real_trig : Trig R := {|
  np_pi := PI;
  np_sin := sin;
  np_cos := cos;
  np_arctan := atan;
  np_arcsin := asin;
  lit_0_5 := (5 / 10)%R;
  lit_180 := 180%R;
  lit_122_93192 := (12293192 / 100000)%R;
  lit_27_128336 := (27128336 / 1000000)%R;
  lit_192_859508 := (192859508 / 1000000)%R
|}.

Section CMB.
Context {A : Type} {AR : Arith A} {CO : Constants A} {TR : Trig A}.
Local Open Scope arith_scope.

(** [np.radians(x)] *)
Definition np_radians (x : A) : A := x * (np_pi / lit_180).

(** [gal_to_eq(l, b)]: [(RA, dec)]. *)
Definition gal_to_eq (l b : A) : A * A :=
  let l_NCP := np_radians lit_122_93192 in
  let del_NGP := np_radians lit_27_128336 in
  let alpha_NGP := np_radians lit_192_859508 in
  let RA :=
    np_arctan ((np_cos b * np_sin (l_NCP - l))
               / (np_cos del_NGP * np_sin b
                  - np_sin del_NGP * np_cos b * np_cos (l_NCP - l)))
    + alpha_NGP in
  let dec :=
    np_arcsin (np_sin del_NGP * np_sin b
               + np_cos del_NGP * np_cos b * np_cos (l_NCP - l)) in
  (RA, dec).

(** [CMB_correction(df, which_z)]: the column [which_z+'_CMB'] that the
    call writes, [which_z] being the column [z] of the rows. *)
Definition CMB_correction (df : Table A) : list A :=
  let '(phi_CMB, dec_CMB) := gal_to_eq (np_radians l_CMB) (np_radians b_CMB) in
  let theta_CMB := lit_0_5 * np_pi - dec_CMB in
  map (fun g =>
         let v_gal := clight * z g in
         let delV :=
           v_CMB * (np_sin (theta g) * np_sin theta_CMB
                      * np_cos (phi g - phi_CMB)
                    + np_cos (theta g) * np_cos theta_CMB) in
         let v_corr := v_gal + delV in
         v_corr / clight)
    (rows df).
End CMB.

(** ** The Schechter parameters (globals.py), over the reals *)

Section Schechter.
Local Open Scope R_scope.

(** [scipy.special.gamma] and [scipy.special.gammaincc]. *)
Variable gamma : R -> R.
Variable gammaincc : R -> R -> R.

(** [get_SchParams(Lstar, phiStar, h0)]:
    [(Lstar*(h0/0.7)**(-2), phiStar*(h0/0.7)**(3))]. *)
Definition get_SchParams (Lstar phiStar h0 : R) : R * R :=
  let Lstar := Lstar * powerRZ (h0 / (7 / 10)) (-2) in
  let phiStar := phiStar * powerRZ (h0 / (7 / 10)) 3 in
  (Lstar, phiStar).

(** [get_SchNorm(phistar, Lstar, alpha, Lcut)] *)
Definition get_SchNorm (phistar Lstar alpha Lcut : R) : R :=
  phistar * Lstar * gamma (alpha + 2) * gammaincc (alpha + 2) Lcut.
End Schechter.

(** * Properties *)

(** ** Real arithmetic *)

Lemma Rltb_true (x y : R) : Rltb x y = true <-> (x < y)%R.
Proof. unfold Rltb. destruct (Rlt_dec x y); split; auto; discriminate. Qed.

Lemma Rltb_false (x y : R) : Rltb x y = false <-> (y <= x)%R.
Proof.
  unfold Rltb. destruct (Rlt_dec x y); split; auto; try discriminate; lra.
Qed.

Lemma Rleb_true (x y : R) : Rleb x y = true <-> (x <= y)%R.
Proof. unfold Rleb. destruct (Rle_dec x y); split; auto; discriminate. Qed.

Lemma Rleb_false (x y : R) : Rleb x y = false <-> (y < x)%R.
Proof.
  unfold Rleb. destruct (Rle_dec x y); split; auto; try discriminate; lra.
Qed.

Lemma amax_Rmax (x y : R) : amax (AR := real_arith) x y = Rmax x y.
Proof.
  unfold amax, Rmax; simpl; unfold Rltb.
  destruct (Rlt_dec x y), (Rle_dec x y); try reflexivity; lra.
Qed.

Lemma amin_Rmin (x y : R) : amin (AR := real_arith) x y = Rmin x y.
Proof.
  unfold amin, Rmin; simpl; unfold Rltb.
  destruct (Rlt_dec y x), (Rle_dec x y); try reflexivity; lra.
Qed.

Lemma clip_real (x lo hi : R) :
  clip (AR := real_arith) x lo hi = Rmin (Rmax x lo) hi.
Proof. unfold clip. now rewrite amax_Rmax, amin_Rmin. Qed.

(** ** Completion modes *)

Section Modes.
Context {A : Type} {AR : Arith A}.
Local Open Scope arith_scope.

Lemma init_flags (completionType : string) :
  completionType <> "add"%string -> completionType <> "mult"%string ->
  _additive (GalCompleted_init (A := A) completionType) = false /\
  _multiplicative (GalCompleted_init (A := A) completionType) = false.
Proof.
  intros Hadd Hmult. apply String.eqb_neq in Hadd, Hmult.
  unfold GalCompleted_init; simpl. now rewrite Hadd, Hmult.
Qed.

(** C6: for every completion-mode string other than "add" and "mult",
    [GalCompleted(completionType)] is built (the constructor is a total
    function) and is the very aggregator that the default mode "mix"
    builds, so every method behaves as in the interpolated mode; in
    particular [confidence] is the interpolated one. *)
Theorem unknown_completionType_is_interpolated (completionType : string) :
  completionType <> "add"%string -> completionType <> "mult"%string ->
  GalCompleted_init (A := A) completionType = GalCompleted_init "mix" /\
  forall compl : A,
    confidence (GalCompleted_init completionType) compl
    = interpolated_confidence compl.
Proof.
  intros Hadd Hmult.
  destruct (init_flags completionType Hadd Hmult) as [Ha Hm].
  split.
  - unfold GalCompleted_init in *; simpl in *.
    destruct (String.eqb completionType "add");
      destruct (String.eqb completionType "mult");
      try discriminate; reflexivity.
  - intros compl. unfold confidence. now rewrite Hm, Ha.
Qed.
End Modes.

(** A mistyped mode: the aggregator of "additive" is the one of "mix". *)
Lemma unknown_completionType_witness :
  GalCompleted_init (A := R) "additive" = GalCompleted_init "mix" /\
  forall compl : R,
    confidence (AR := real_arith) (GalCompleted_init "additive") compl
    = interpolated_confidence (AR := real_arith) compl.
Proof.
  apply (unknown_completionType_is_interpolated (AR := real_arith) "additive");
    discriminate.
Defined.

(** ** The interpolated confidence over the reals *)

Section Confidence.
Local Open Scope R_scope.

Lemma confidence_mix_real (compl : R) :
  confidence (AR := real_arith) (GalCompleted_init "mix") compl
  = exp (5 / 100 * (1 - 1 / Rmin (Rmax compl (2 / 1000)) 1)).
Proof.
  unfold confidence; simpl. now rewrite clip_real.
Qed.

Lemma clipped_pos (x : R) : 2 / 1000 <= Rmin (Rmax x (2 / 1000)) 1.
Proof.
  apply Rmin_glb; [apply Rmax_r | lra].
Qed.

Lemma clipped_mono (x y : R) :
  x <= y -> Rmin (Rmax x (2 / 1000)) 1 <= Rmin (Rmax y (2 / 1000)) 1.
Proof.
  intros H. now apply Rle_min_compat_r, Rle_max_compat_r.
Qed.

Lemma exp_le (x y : R) : x <= y -> exp x <= exp y.
Proof.
  intros [H | ->]; [left; now apply exp_increasing | right; reflexivity].
Qed.

(** The interpolated confidence does not decrease with completeness, on
    the whole line. *)
Lemma confidence_mix_mono (x y : R) :
  x <= y ->
  confidence (AR := real_arith) (GalCompleted_init "mix") x
  <= confidence (AR := real_arith) (GalCompleted_init "mix") y.
Proof.
  intros H. rewrite !confidence_mix_real. apply exp_le.
  pose proof (clipped_pos x) as Hx. pose proof (clipped_mono x y H) as Hxy.
  assert (/ Rmin (Rmax y (2 / 1000)) 1 <= / Rmin (Rmax x (2 / 1000)) 1)
    by (apply Rinv_le_contravar; lra).
  unfold Rdiv. lra.
Qed.

(** C7: in the interpolated mode [confidence] clips its argument to
    [[2e-3, 1]] and returns [exp(0.05 * (1 - 1/clipped))]; it does not
    decrease with the completeness over [(0, 1]]; [confidence(1) = 1]
    and [confidence(2e-3) = exp(0.05 * (1 - 500))]. *)
Theorem confidence_interpolated_monotone :
  (forall compl : R,
     confidence (AR := real_arith) (GalCompleted_init "mix") compl
     = exp (5 / 100 * (1 - 1 / Rmin (Rmax compl (2 / 1000)) 1))) /\
  (forall x y : R,
     0 < x -> x <= y -> y <= 1 ->
     confidence (AR := real_arith) (GalCompleted_init "mix") x
     <= confidence (AR := real_arith) (GalCompleted_init "mix") y) /\
  confidence (AR := real_arith) (GalCompleted_init "mix") 1 = 1 /\
  confidence (AR := real_arith) (GalCompleted_init "mix") (2 / 1000)
  = exp (5 / 100 * (1 - 500)).
Proof.
  split; [exact confidence_mix_real |].
  split; [intros x y _ Hxy _; now apply confidence_mix_mono |].
  split.
  - rewrite confidence_mix_real.
    rewrite (Rmax_left 1 (2 / 1000)) by lra.
    rewrite (Rmin_left 1 1) by lra.
    replace (5 / 100 * (1 - 1 / 1)) with 0 by lra. apply exp_0.
  - rewrite confidence_mix_real.
    rewrite (Rmax_left (2 / 1000) (2 / 1000)) by lra.
    rewrite (Rmin_left (2 / 1000) 1) by lra.
    f_equal. lra.
Qed.
End Confidence.

(** ** The floor under the completeness *)

Lemma Forall_zip_with {T U V} (P : V -> Prop) (f : T -> U -> V) l1 l2 :
  (forall x y, P (f x y)) -> Forall P (zip_with f l1 l2).
Proof.
  intros H. revert l2.
  induction l1 as [| x l1 IH]; intros [| y l2]; simpl; constructor; auto.
Qed.

Lemma Forall_map_all {T U} (P : U -> Prop) (f : T -> U) l :
  (forall x, P (f x)) -> Forall P (map f l).
Proof. intros H. induction l; simpl; constructor; auto. Qed.

Section Floor.
Local Open Scope R_scope.

Lemma completeness_real (c : GalCat R) (th ph zz : R) :
  completeness (AR := real_arith) c th ph zz
  = get (_completeness c) th ph zz + 1 / 1000000000.
Proof. reflexivity. Qed.

(** C8: [completeness] returns the value of the completeness model plus
    [1e-9]; it is positive wherever the model is not negative; and with a
    model that is nowhere negative, no entry of the arrays that
    [get_inhom_contained] and [get_inhom] divide by
    ([oneZPerAngle=False] and [oneZPerAngle=True]) is zero. *)
Theorem completeness_floor_nonzero (c : GalCat R) :
  (forall th ph zz,
     completeness (AR := real_arith) c th ph zz
     = get (_completeness c) th ph zz + 1 / 1000000000) /\
  (forall th ph zz,
     0 <= get (_completeness c) th ph zz ->
     0 < completeness (AR := real_arith) c th ph zz) /\
  ((forall th ph zz, 0 <= get (_completeness c) th ph zz) ->
   forall ths phs zs,
     Forall (Forall (fun x => x <> 0))
       (completeness_grid (AR := real_arith) c ths phs zs) /\
     Forall (fun x => x <> 0)
       (completeness_paired (AR := real_arith) c ths phs zs)).
Proof.
  split; [intros; apply completeness_real |].
  split; [intros th ph zz H; rewrite completeness_real; lra |].
  intros Hpos ths phs zs. split.
  - unfold completeness_grid. apply Forall_zip_with. intros th ph.
    apply Forall_map_all. intros zz. rewrite completeness_real.
    specialize (Hpos th ph zz). lra.
  - unfold completeness_paired. apply Forall_zip_with. intros [th ph] zz.
    cbn [fst snd]. rewrite completeness_real. specialize (Hpos th ph zz). lra.
Qed.
End Floor.

(** ** An aggregator without catalogues *)

Section NoCatalogue.
Context {A : Type} {AR : Arith A} {EX : External A}.
Local Open Scope arith_scope.

Lemma get_inhom_contained_no_cat (ws : list A) (add mult : bool)
  (zGrid : list A) (nside : N) :
  get_inhom_contained (mkGalCompleted [] ws add mult) zGrid nside
  = (mkGalCompleted [] ws add mult, Raise ValueError).
Proof. reflexivity. Qed.

Lemma get_inhom_no_cat (ws : list A) (add mult : bool) (nside : N) :
  get_inhom (mkGalCompleted [] ws add mult) nside
  = (mkGalCompleted [] ws add mult, Raise ValueError).
Proof. reflexivity. Qed.

Lemma map_repeat {T U} (f : T -> U) (x : T) (n : nat) :
  map f (repeat x n) = repeat (f x) n.
Proof. induction n; simpl; congruence. Qed.

Lemma eval_hom_no_cat (ws : list A) (add mult : bool)
  (ths phs zs : list A) (MC : bool) :
  eval_hom (mkGalCompleted [] ws add mult) ths phs zs MC
  = if MC && negb (length ths =? length zs)%nat then Raise AssertionError
    else Ok (repeat (azero / azero) (length ths)).
Proof.
  unfold eval_hom. destruct (MC && _); [reflexivity |].
  simpl. now rewrite map_repeat.
Qed.
End NoCatalogue.

(** C10: with no catalogue, [get_inhom_contained] and [get_inhom] raise
    (stacking an empty list); [eval_hom], once past its assertion on the
    lengths, does not raise and returns [0/0], which is NaN and not zero,
    at every query point. *)
Theorem no_catalogue_raises_or_nan (fexp : float -> float)
  (EX : External float) (ws : list float) (add mult : bool)
  (zGrid ths phs zs : list float) (nside : N) :
  snd (get_inhom_contained (AR := float_arith fexp)
         (mkGalCompleted [] ws add mult) zGrid nside) = Raise ValueError /\
  snd (get_inhom (AR := float_arith fexp)
         (mkGalCompleted [] ws add mult) nside) = Raise ValueError /\
  eval_hom (AR := float_arith fexp) (mkGalCompleted [] ws add mult)
    ths phs zs false = Ok (repeat nan (length ths)) /\
  (length ths = length zs ->
   eval_hom (AR := float_arith fexp) (mkGalCompleted [] ws add mult)
     ths phs zs true = Ok (repeat nan (length ths))) /\
  is_nan nan = true /\ PrimFloat.eqb nan 0 = false.
Proof.
  split; [reflexivity |]. split; [reflexivity |].
  split; [now rewrite eval_hom_no_cat |].
  split; [| split; reflexivity].
  intros Hlen. rewrite eval_hom_no_cat. simpl.
  rewrite Hlen, Nat.eqb_refl. reflexivity.
Qed.

(** ** parmap returns the results in the order of its input *)

Section ParmapOrder.
Context {X B : Type}.

Lemma insert_by_index_comm (p q : nat * B) (l : list (nat * B)) :
  fst p <> fst q ->
  insert_by_index p (insert_by_index q l)
  = insert_by_index q (insert_by_index p l).
Proof.
  intros Hpq. induction l as [| y l IH]; simpl.
  - destruct (Nat.leb_spec (fst p) (fst q)), (Nat.leb_spec (fst q) (fst p));
      try reflexivity; lia.
  - destruct (Nat.leb_spec (fst q) (fst y)), (Nat.leb_spec (fst p) (fst y));
      simpl;
      repeat match goal with
             | |- context [(?a <=? ?b)%nat] =>
                 destruct (Nat.leb_spec a b); try lia; simpl
             end;
      try reflexivity; try lia.
    now rewrite IH.
Qed.

Lemma sorted_permutation (l l' : list (nat * B)) :
  Permutation l l' -> List.NoDup (map fst l) -> sorted l = sorted l'.
Proof.
  induction 1 as [| x l l' _ IH | x y l | l l' l'' H1 IH1 H2 IH2];
    intros Hnd; simpl in *.
  - reflexivity.
  - inversion Hnd; subst. now rewrite IH.
  - apply insert_by_index_comm. inversion Hnd as [| ? ? Hin _]; subst.
    intros Heq. apply Hin. rewrite Heq. now left.
  - rewrite IH1 by assumption. apply IH2.
    eapply Permutation_NoDup; [| exact Hnd]. now apply Permutation_map.
Qed.

Lemma sorted_combine_seq (ys : list B) (a : nat) :
  sorted (combine (seq a (length ys)) ys) = combine (seq a (length ys)) ys.
Proof.
  revert a. induction ys as [| y ys IH]; intros a; [reflexivity |].
  cbn [length seq combine]. change (sorted ((a, y) :: ?l))
    with (insert_by_index (a, y) (sorted l)).
  rewrite IH.
  destruct ys as [| y' ys]; simpl; [reflexivity |].
  destruct (Nat.leb_spec a (S a)); [reflexivity | lia].
Qed.

Lemma map_fst_combine_seq (ys : list B) (a : nat) :
  map fst (combine (seq a (length ys)) ys) = seq a (length ys).
Proof.
  revert a. induction ys as [| y ys IH]; intros a; simpl; [reflexivity |].
  now rewrite IH.
Qed.

Lemma map_snd_combine_seq (ys : list B) (a : nat) :
  map snd (combine (seq a (length ys)) ys) = ys.
Proof.
  revert a. induction ys as [| y ys IH]; intros a; simpl; [reflexivity |].
  now rewrite IH.
Qed.

Lemma results_enumerate (f : X -> B) (xs : list X) :
  map (fun ix : nat * X => (fst ix, f (snd ix))) (enumerate xs)
  = combine (seq 0 (length (map f xs))) (map f xs).
Proof.
  unfold enumerate. rewrite length_map. generalize 0%nat.
  induction xs as [| x xs IH]; intros a; simpl; [reflexivity |].
  now rewrite IH.
Qed.

(** Whatever the order in which the workers finish, [parmap(f, X)] is
    [[f(x) for x in X]]. *)
Lemma parmap_map (completion : list (nat * B) -> list (nat * B))
  (f : X -> B) (xs : list X) :
  (forall l, Permutation (completion l) l) ->
  parmap completion f xs = map f xs.
Proof.
  intros Hperm. unfold parmap. rewrite results_enumerate.
  rewrite (sorted_permutation _ _ (Hperm _)).
  - now rewrite sorted_combine_seq, map_snd_combine_seq.
  - eapply Permutation_NoDup.
    + apply Permutation_map, Permutation_sym, Hperm.
    + rewrite map_fst_combine_seq. apply seq_NoDup.
Qed.
End ParmapOrder.

(** ** The batches of include_vol_prior *)

Lemma firstn_plus {T} (a b : nat) (l : list T) :
  firstn (a + b) l = firstn a l ++ firstn b (skipn a l).
Proof.
  revert l. induction a as [| a IH]; intros l; [reflexivity |].
  destruct l as [| x l]; simpl.
  - now rewrite firstn_nil.
  - now rewrite IH.
Qed.

Lemma chunks_firstn {T} (n k : nat) (l : list T) :
  concat (map (fun b => firstn n (skipn (n * b) l)) (seq 0 k))
  = firstn (n * k) l.
Proof.
  induction k as [| k IH].
  - simpl. now rewrite Nat.mul_0_r.
  - rewrite seq_S, map_app, concat_app, IH. simpl.
    rewrite app_nil_r. replace (n * S k)%nat with (n * k + n)%nat by lia.
    now rewrite firstn_plus.
Qed.

Section Batches.
Context {A : Type} {AR : Arith A} {EX : External A}.

(** A batch other than the last holds [n] rows from [n * batchId] on. *)
Lemma batch_rows_inner (df : Table A) (b nBatches : nat) :
  (b < nBatches - 1)%nat ->
  batch_rows df b nBatches
  = firstn (length (rows df) / nBatches)
      (skipn (length (rows df) / nBatches * b) (rows df)).
Proof.
  intros Hb. unfold batch_rows, iloc.
  destruct (Nat.eqb_spec b (nBatches - 1)); [lia |].
  f_equal. lia.
Qed.

(** The last batch holds the rows from [n * (nBatches - 1)] to the end. *)
Lemma batch_rows_last (df : Table A) (nBatches : nat) :
  (1 <= nBatches)%nat ->
  batch_rows df (nBatches - 1) nBatches
  = skipn (length (rows df) / nBatches * (nBatches - 1)) (rows df).
Proof.
  intros Hn. unfold batch_rows, iloc. rewrite Nat.eqb_refl.
  apply firstn_all2. rewrite length_skipn. lia.
Qed.

(** The batches are contiguous row ranges that cover the table, in the
    order of the rows. *)
Lemma batches_cover (df : Table A) (nBatches : nat) :
  (1 <= nBatches)%nat ->
  concat (map (fun b => batch_rows df b nBatches) (seq 0 nBatches))
  = rows df.
Proof.
  intros Hn. destruct nBatches as [| k]; [lia |].
  pose proof (batch_rows_last df (S k) Hn) as Hlast.
  replace (S k - 1)%nat with k in Hlast by lia.
  rewrite seq_S, map_app, concat_app. cbn [map concat Nat.add].
  rewrite app_nil_r, Hlast.
  rewrite (map_ext_in _
             (fun b => firstn (length (rows df) / S k)
                         (skipn (length (rows df) / S k * b) (rows df)))).
  - rewrite chunks_firstn. apply firstn_skipn.
  - intros b Hb. apply in_seq in Hb. apply batch_rows_inner. lia.
Qed.

Lemma vol_prior_res_rows
  (completion : list (nat * list (A * A * A * A * A))
                -> list (nat * list (A * A * A * A * A)))
  (nBatches : nat) (df : Table A) :
  (forall l, Permutation (completion l) l) -> (1 <= nBatches)%nat ->
  vol_prior_res completion nBatches df
  = match np_max (map z_upperbound (rows df)) with
    | Raise e => Raise e
    | Ok zmax =>
        Ok (map (convolve_bounded_keelin_3 (vol_jacobian zmax)) (rows df))
    end.
Proof.
  intros Hperm Hn. unfold vol_prior_res.
  destruct (np_max (map z_upperbound (rows df))) as [zmax | e];
    [| reflexivity].
  rewrite parmap_map by assumption.
  assert (Hcat :
    concat (map (fun b => convolve_batch df (vol_jacobian zmax) b nBatches)
              (seq 0 nBatches))
    = map (convolve_bounded_keelin_3 (vol_jacobian zmax)) (rows df)).
  { unfold convolve_batch.
    rewrite <- (batches_cover df nBatches Hn).
    rewrite concat_map, map_map. reflexivity. }
  rewrite <- Hcat.
  destruct nBatches as [| k]; [lia |]. reflexivity.
Qed.
End Batches.

Section BatchCount.
Context {A : Type} {AR : Arith A} {EX : External A}.

Lemma include_vol_prior_batches_rows
  (completion : list (nat * list (A * A * A * A * A))
                -> list (nat * list (A * A * A * A * A)))
  (nBatches : nat) (df : Table A) :
  (forall l, Permutation (completion l) l) -> (1 <= nBatches)%nat ->
  include_vol_prior_batches completion nBatches df
  = match np_max (map z_upperbound (rows df)) with
    | Raise e => Raise e
    | Ok zmax =>
        let res :=
          map (convolve_bounded_keelin_3 (vol_jacobian zmax)) (rows df) in
        let df' := {| rows := zip_with set_quantiles (rows df) res;
                      pixcols := pixcols df |} in
        Ok (df', take_rows (map negb (map unfeasible res)) df')
    end.
Proof.
  intros Hperm Hn. unfold include_vol_prior_batches.
  rewrite vol_prior_res_rows by assumption.
  destruct (np_max (map z_upperbound (rows df))) as [zmax | e];
    [| reflexivity].
  cbn zeta. now rewrite length_map, Nat.eqb_refl.
Qed.

(** C4: whatever the order in which the workers finish, the run with
    [nBatches >= 1] batches and the run with one batch give the same
    corrected quantiles, row by row in the order of the table: the
    batches are contiguous ranges that cover the rows, [parmap] returns
    their results by batch index, and [res] is the convolution of each
    row in turn.  So [include_vol_prior], whose number of batches is
    [max(int(len(df)/10000), 1)], returns what one batch returns. *)
Theorem vol_prior_batches_agree
  (completion completion' : list (nat * list (A * A * A * A * A))
                            -> list (nat * list (A * A * A * A * A)))
  (nBatches : nat) (df : Table A) :
  (forall l, Permutation (completion l) l) ->
  (forall l, Permutation (completion' l) l) ->
  (1 <= nBatches)%nat ->
  concat (map (fun b => batch_rows df b nBatches) (seq 0 nBatches)) = rows df /\
  vol_prior_res completion nBatches df = vol_prior_res completion' 1 df /\
  (forall zmax,
     np_max (map z_upperbound (rows df)) = Ok zmax ->
     vol_prior_res completion nBatches df
     = Ok (map (convolve_bounded_keelin_3 (vol_jacobian zmax)) (rows df))) /\
  include_vol_prior_batches completion nBatches df
  = include_vol_prior_batches completion' 1 df /\
  include_vol_prior completion df = include_vol_prior_batches completion' 1 df.
Proof.
  intros Hperm Hperm' Hn.
  split; [now apply batches_cover |].
  split; [now rewrite !vol_prior_res_rows by (assumption || lia) |].
  split.
  { intros zmax Hmax. rewrite vol_prior_res_rows by assumption.
    now rewrite Hmax. }
  split.
  - now rewrite !include_vol_prior_batches_rows by (assumption || lia).
  - unfold include_vol_prior.
    now rewrite !include_vol_prior_batches_rows by (assumption || lia).
Qed.
End BatchCount.

(** Three rows in two batches, the second batch finishing first. *)
Lemma vol_prior_batches_agree_witness :
  let AR := float_arith (fun x => x) in
  let EX := example_external in
  let df := example_table [example_gal 0 0; example_gal 0 1; example_gal 2 2] in
  concat (map (fun b => batch_rows df b 2) (seq 0 2)) = rows df /\
  vol_prior_res (@rev _) 2 df = vol_prior_res (fun l => l) 1 df /\
  (forall zmax,
     np_max (map z_upperbound (rows df)) = Ok zmax ->
     vol_prior_res (@rev _) 2 df
     = Ok (map (convolve_bounded_keelin_3 (vol_jacobian zmax)) (rows df))) /\
  include_vol_prior_batches (@rev _) 2 df
  = include_vol_prior_batches (fun l => l) 1 df /\
  include_vol_prior (@rev _) df = include_vol_prior_batches (fun l => l) 1 df.
Proof.
  intros AR EX df.
  apply (vol_prior_batches_agree (@rev _) (fun l => l) 2 df).
  - intros l. apply Permutation_sym, Permutation_rev.
  - intros l. apply Permutation_refl.
  - lia.
Defined.

(** ** What include_vol_prior leaves and returns *)

Section VolPriorFrames.
Context {A : Type} {AR : Arith A} {EX : External A}.

Lemma quantiles_of_set_quantiles (g : Gal A) (r : A * A * A * A * A) :
  quantiles_of (set_quantiles g r) = r.
Proof. destruct r as [[[[r0 r1] r2] r3] r4]. reflexivity. Qed.

Lemma select_feasible (gs : list (Gal A)) (res : list (A * A * A * A * A)) :
  select_mask (map negb (map unfeasible res)) (zip_with set_quantiles gs res)
  = List.filter (fun g => negb (unfeasible (quantiles_of g)))
      (zip_with set_quantiles gs res).
Proof.
  revert res. induction gs as [| g gs IH]; intros [| r res];
    cbn [select_mask zip_with map List.filter]; try reflexivity.
  rewrite quantiles_of_set_quantiles, IH. reflexivity.
Qed.



(** What a call that returns leaves in the frame it was given, and what
    it returns. *)
Lemma include_vol_prior_ok
  (completion : list (nat * list (A * A * A * A * A))
                -> list (nat * list (A * A * A * A * A)))
  (df df' out : Table A) :
  include_vol_prior completion df = Ok (df', out) ->
  exists res,
    length res = length (rows df) /\
    df' = {| rows := zip_with set_quantiles (rows df) res;
             pixcols := pixcols df |} /\
    out = take_rows (map negb (map unfeasible res)) df'.
Proof.
  unfold include_vol_prior, include_vol_prior_batches.
  destruct (vol_prior_res _ _ _) as [res | e]; [| discriminate].
  destruct (Nat.eqb_spec (length res) (length (rows df))) as [Hlen | Hlen];
    simpl; [| discriminate].
  intros [= <- <-]. exists res. auto.
Qed.

End VolPriorFrames.

Section Feasible.
Context {EX : External R}.
Local Open Scope R_scope.

Lemma unfeasible_real_false (r0 r1 r2 r3 r4 : R) :
  unfeasible (AR := real_arith) (r0, r1, r2, r3, r4) = false
  <-> r0 < r1 < r2 /\ r2 < r3 < r4 /\ 0 <= r0.
Proof.
  unfold unfeasible; simpl.
  rewrite !orb_false_iff, !Rleb_false, Rltb_false. intuition.
Qed.

Lemma feasible_row_real (g : Gal R) :
  negb (unfeasible (AR := real_arith) (quantiles_of g)) = true
  <-> z_lowerbound g < z_lower g < z g /\ z g < z_upper g < z_upperbound g
      /\ 0 <= z_lowerbound g.
Proof.
  rewrite negb_true_iff. apply unfeasible_real_false.
Qed.

(** Over the reals, where every comparison of the mask is decided,
    every row of the frame returned has its quantiles in order,
    [z_lowerbound <= z_lower <= z <= z_upper <= z_upperbound], and
    [z_lowerbound >= 0]; the rows returned are the rows of the corrected
    frame whose quantiles increase strictly and whose lower bound is not
    negative, so every other row is removed. *)
Theorem include_vol_prior_survivors_feasible
  (completion : list (nat * list (R * R * R * R * R))
                -> list (nat * list (R * R * R * R * R)))
  (df df' out : Table R) :
  include_vol_prior (AR := real_arith) completion df = Ok (df', out) ->
  Forall (fun g =>
            z_lowerbound g <= z_lower g <= z g /\
            z g <= z_upper g <= z_upperbound g /\
            0 <= z_lowerbound g) (rows out) /\
  forall g,
    In g (rows out) <->
    In g (rows df') /\
    z_lowerbound g < z_lower g < z g /\
    z g < z_upper g < z_upperbound g /\
    0 <= z_lowerbound g.
Proof.
  intros Hcall. apply include_vol_prior_ok in Hcall.
  destruct Hcall as [res [Hlen [-> ->]]]. cbn [rows take_rows].
  rewrite select_feasible.
  assert (Hin : forall g,
    In g (List.filter
            (fun g => negb (unfeasible (AR := real_arith) (quantiles_of g)))
            (zip_with set_quantiles (rows df) res)) <->
    In g (zip_with set_quantiles (rows df) res) /\
    z_lowerbound g < z_lower g < z g /\
    z g < z_upper g < z_upperbound g /\
    0 <= z_lowerbound g).
  { intros g. rewrite filter_In, feasible_row_real. reflexivity. }
  split; [| exact Hin].
  apply List.Forall_forall. intros g Hg. apply Hin in Hg. lra.
Qed.
End Feasible.

(** The example table through [include_vol_prior]: the second row is
    removed, and stays in the frame that was passed. *)
Lemma example_vol_prior_run :
  include_vol_prior (AR := real_arith) (EX := example_external) (fun l => l)
    (example_table [example_gal 0 0; example_gal_swapped 0 1])
  = Ok (example_table [example_gal 0 0; example_gal_swapped 0 1],
        example_table [example_gal 0 0]).
Proof.
  unfold include_vol_prior.
  rewrite include_vol_prior_batches_rows;
    [| intros; apply Permutation_refl | apply Nat.le_max_r].
  cbn [example_table rows map np_max]. cbn zeta.
  cbn [convolve_bounded_keelin_3 example_external].
  assert (H1 : unfeasible (AR := real_arith)
                 (quantiles_of (example_gal 0 0)) = false)
    by (apply unfeasible_real_false; simpl; lra).
  assert (H2 : unfeasible (AR := real_arith)
                 (quantiles_of (example_gal_swapped 0 1)) = true).
  { destruct (unfeasible (quantiles_of (example_gal_swapped 0 1))) eqn:E;
      [reflexivity |].
    apply unfeasible_real_false in E. simpl in E. lra. }
  unfold quantiles_of in H1, H2. rewrite H1, H2. reflexivity.
Qed.

Lemma include_vol_prior_survivors_witness :
  let df' := example_table (A := R) [example_gal 0 0; example_gal_swapped 0 1] in
  let out := example_table (A := R) [example_gal 0 0] in
  Forall (fun g =>
            z_lowerbound g <= z_lower g <= z g /\
            z g <= z_upper g <= z_upperbound g /\
            0 <= z_lowerbound g)%R (rows out) /\
  forall g,
    In g (rows out) <->
    In g (rows df') /\
    (z_lowerbound g < z_lower g < z g /\
    z g < z_upper g < z_upperbound g /\
    0 <= z_lowerbound g)%R.
Proof.
  intros df' out.
  exact (include_vol_prior_survivors_feasible (EX := example_external)
           (fun l => l) df' df' out example_vol_prior_run).
Defined.


(** ** Where the pixel column is cached *)

Section PixelCache.
Context {A : Type} {AR : Arith A} {EX : External A}.

Lemma has_pix_set_pix (nside : N) (col : list Z) (df : Table A) :
  has_pix nside (set_pix nside col df) = true.
Proof. unfold has_pix, set_pix; simpl. now rewrite lookup_insert_eq. Qed.

Lemma has_pix_take_rows (nside : N) (mask : list bool) (df : Table A) :
  has_pix nside (take_rows mask df) = has_pix nside df.
Proof.
  unfold has_pix, take_rows; simpl. rewrite lookup_fmap.
  now destruct (pixcols df !! nside).
Qed.

(** X2: [select_area] caches the column on the full table, and the
    new selection has it too. *)
Lemma select_area_caches_on_data (pixels : list Z) (nside : N) (c : GalCat A) :
  has_pix nside (data (select_area pixels nside c)) = true /\
  has_pix nside (get_data (select_area pixels nside c)) = true.
Proof.
  unfold select_area, get_data.
  destruct (has_pix nside (data c)) eqn:E; simpl;
    rewrite has_pix_take_rows, ?has_pix_set_pix; auto.
Qed.

(** In the aggregator the column is written to the selection: when the
    selection is a frame of its own, the full table does not get it. *)
Lemma cache_pix_on_copy (nside : N) (c : GalCat A) (d : Table A) :
  selectedData c = SelCopy d ->
  data (cache_pix nside c) = data c /\
  has_pix nside (get_data (cache_pix nside c)) = true.
Proof.
  intros Hsel. unfold cache_pix, get_data. rewrite Hsel.
  destruct (has_pix nside d) eqn:E; simpl; rewrite ?Hsel;
    auto using has_pix_set_pix.
Qed.

(** Only before any selection is the column of the aggregator written
    to the full table. *)
Lemma cache_pix_on_data (nside : N) (c : GalCat A) :
  selectedData c = SelData ->
  has_pix nside (data (cache_pix nside c)) = true.
Proof.
  intros Hsel. unfold cache_pix, get_data. rewrite Hsel.
  destruct (has_pix nside (data c)) eqn:E; simpl;
    auto using has_pix_set_pix.
Qed.
End PixelCache.

(** C3, on a catalogue of two galaxies in pixels 0 and 1: after
    [select_area] the selection is a frame of its own, so the column
    that [get_inhom_contained] computes for [nside = 64] is on that frame
    and not on the full table; the next [select_area] drops it, and the
    next [get_inhom_contained] runs [ang2pix] for [nside = 64] again. *)
Theorem pix_cache_lost_on_reselection (fexp : float -> float) :
  let AR := float_arith fexp in
  let EX := example_external in
  let c0 := example_cat [example_gal 0 0; example_gal 2 1] 1%float in
  let agg0 := add_cat c0 1%float (GalCompleted_init "mix") in
  let agg1 := GalCompleted_select_area [0%Z] 128 agg0 in
  let agg2 := fst (get_inhom_contained agg1 [1%float] 64) in
  let agg3 := GalCompleted_select_area [0%Z] 128 agg2 in
  let agg4 := fst (get_inhom_contained agg3 [1%float] 64) in
  map (fun c => has_pix 64 (get_data c)) (_galcats agg2) = [true] /\
  map (fun c => has_pix 64 (data c)) (_galcats agg2) = [false] /\
  map (fun c => has_pix 64 (get_data c)) (_galcats agg3) = [false] /\
  map ang2pix_calls (_galcats agg2) = [[128%N; 64%N]] /\
  map ang2pix_calls (_galcats agg4) = [[128%N; 64%N; 64%N]].
Proof.
  intros. repeat split; vm_compute; reflexivity.
Qed.

(** ** A catalogue with an empty selection *)

Lemma is_nan_div_nan (x : float) : is_nan (x / nan) = true.
Proof.
  unfold is_nan. rewrite FloatAxioms.eqb_spec, FloatAxioms.div_spec.
  change (Prim2SF nan) with S754_nan.
  now destruct (Prim2SF x).
Qed.

(** C1, on catalogue A (two galaxies in pixel 0, completeness model 1
    everywhere, weight 0.7) and catalogue B (one galaxy in pixel 1,
    weight 0.3), both restricted to pixel 0, in the interpolated mode:
    B has no row left, [np.mean] of its completeness is [0/0], and
    [catweightTotal] is NaN.  Each weight returned is the weight that A
    alone gets before the last division, divided by NaN. *)
Theorem empty_selection_gives_nan (fexp : float -> float) :
  let AR := float_arith fexp in
  let EX := example_external in
  let catA := example_cat [example_gal 0 0; example_gal 0 1] 1%float in
  let catB := example_cat [example_gal 2 2] 1%float in
  let alone :=
    GalCompleted_select_area [0%Z] 128
      (add_cat catA 0.7%float (GalCompleted_init "mix")) in
  let both :=
    GalCompleted_select_area [0%Z] 128
      (add_cat catB 0.3%float
         (add_cat catA 0.7%float (GalCompleted_init "mix"))) in
  let c := (1 + 1e-9)%float in
  let catweight := (0.7 * c)%float in
  let x := (1 * 1 / c * fexp 0 * catweight / 1)%float in
  GalCompleted_count_selection both = [2%nat; 0%nat] /\
  snd (get_inhom_contained alone [1%float; 2%float] 128)
  = Ok ([0%Z; 0%Z],
        [[x / catweight; x / catweight]; [x / catweight; x / catweight]])%float /\
  snd (get_inhom_contained both [1%float; 2%float] 128)
  = Ok ([0%Z; 0%Z], [[x / nan; x / nan]; [x / nan; x / nan]])%float /\
  is_nan (x / nan) = true.
Proof.
  intros. repeat split; try (vm_compute; reflexivity).
  apply is_nan_div_nan.
Qed.

(** ** Completion with several catalogues *)

Section Loops.
Context {A : Type} {AR : Arith A} {EX : External A}.
Local Open Scope arith_scope.

Lemma cache_pix_rows (nside : N) (c : GalCat A) :
  rows (get_data (cache_pix nside c)) = rows (get_data c).
Proof.
  unfold cache_pix, get_data.
  destruct (selectedData c) eqn:Hsel; rewrite ?Hsel;
    match goal with |- context [if ?b then _ else _] => destruct b end;
    simpl; rewrite ?Hsel; reflexivity.
Qed.

Lemma cache_pix_completeness (nside : N) (c : GalCat A) :
  _completeness (cache_pix nside c) = _completeness c.
Proof.
  unfold cache_pix. now destruct (has_pix nside (get_data c)).
Qed.

Lemma completeness_paired_cache_pix (nside : N) (c : GalCat A) ths phs zs :
  completeness_paired (cache_pix nside c) ths phs zs
  = completeness_paired c ths phs zs.
Proof.
  unfold completeness_paired, completeness.
  now rewrite cache_pix_completeness.
Qed.

Lemma completeness_grid_cache_pix (nside : N) (c : GalCat A) ths phs zs :
  completeness_grid (cache_pix nside c) ths phs zs
  = completeness_grid c ths phs zs.
Proof.
  unfold completeness_grid, completeness.
  now rewrite cache_pix_completeness.
Qed.

(** On the rows of a frame, [oneZPerAngle=True] is the completeness at
    each galaxy, and [oneZPerAngle=False] its completeness along the
    grid. *)
Lemma completeness_paired_rows (c : GalCat A) (gs : list (Gal A)) :
  completeness_paired c (map theta gs) (map phi gs) (map z gs)
  = map (fun g => completeness c (theta g) (phi g) (z g)) gs.
Proof.
  unfold completeness_paired.
  induction gs as [| g gs IH]; simpl; [reflexivity |]. now rewrite IH.
Qed.

Lemma completeness_grid_rows (c : GalCat A) (gs : list (Gal A)) zGrid :
  completeness_grid c (map theta gs) (map phi gs) zGrid
  = map (fun g => map (completeness c (theta g) (phi g)) zGrid) gs.
Proof.
  unfold completeness_grid.
  induction gs as [| g gs IH]; simpl; [reflexivity |]. now rewrite IH.
Qed.

Lemma inhom_body_eval (self : GalCompleted A) (nside : N) (c : GalCat A)
  (wt tot : A) :
  skip_completeness self = false ->
  inhom_body self nside c wt tot
  = (cache_pix nside c, get_pix nside (get_data (cache_pix nside c)),
     map z (rows (get_data c)), inhom_weights self c wt,
     tot + catweight_inhom c wt).
Proof.
  intros Hskip. unfold inhom_body, inhom_weights, catweight_inhom.
  rewrite Hskip. cbn zeta.
  rewrite !cache_pix_rows, !completeness_paired_cache_pix,
    !cache_pix_completeness, !completeness_paired_rows.
  reflexivity.
Qed.

Lemma inhom_loop_eval (self : GalCompleted A) (nside : N)
  (cws : list (GalCat A * A)) (tot : A) :
  skip_completeness self = false ->
  inhom_loop self nside cws tot
  = (map (fun cw => cache_pix nside (fst cw)) cws,
     map (fun cw => get_pix nside (get_data (cache_pix nside (fst cw)))) cws,
     map (fun cw => map z (rows (get_data (fst cw)))) cws,
     map (fun cw => inhom_weights self (fst cw) (snd cw)) cws,
     fold_left (fun t cw => t + catweight_inhom (fst cw) (snd cw)) cws tot).
Proof.
  intros Hskip. revert tot.
  induction cws as [| [c wt] cws IH]; intros tot; [reflexivity |].
  cbn [inhom_loop]. rewrite inhom_body_eval by assumption.
  rewrite IH. reflexivity.
Qed.

Lemma inhom_contained_body_eval (self : GalCompleted A) (zGrid : list A)
  (nside : N) (c : GalCat A) (wt tot : A) :
  skip_completeness self = false ->
  inhom_contained_body self zGrid nside c wt tot
  = (cache_pix nside c, get_pix nside (get_data (cache_pix nside c)),
     inhom_contained_weights self zGrid c wt,
     tot + catweight_contained zGrid c wt).
Proof.
  intros Hskip.
  unfold inhom_contained_body, inhom_contained_weights, catweight_contained.
  rewrite Hskip. cbn zeta.
  rewrite !cache_pix_rows, !completeness_grid_cache_pix,
    !cache_pix_completeness, !completeness_grid_rows.
  reflexivity.
Qed.

Lemma inhom_contained_loop_eval (self : GalCompleted A) (zGrid : list A)
  (nside : N) (cws : list (GalCat A * A)) (tot : A) :
  skip_completeness self = false ->
  inhom_contained_loop self zGrid nside cws tot
  = (map (fun cw => cache_pix nside (fst cw)) cws,
     map (fun cw => get_pix nside (get_data (cache_pix nside (fst cw)))) cws,
     map (fun cw => inhom_contained_weights self zGrid (fst cw) (snd cw)) cws,
     fold_left (fun t cw => t + catweight_contained zGrid (fst cw) (snd cw))
       cws tot).
Proof.
  intros Hskip. revert tot.
  induction cws as [| [c wt] cws IH]; intros tot; [reflexivity |].
  cbn [inhom_contained_loop].
  rewrite inhom_contained_body_eval by assumption.
  rewrite IH. reflexivity.
Qed.

(** What the two calls return when the completeness is evaluated and
    there is a catalogue. *)
Lemma get_inhom_eval (self : GalCompleted A) (nside : N) :
  skip_completeness self = false -> cats_weights self <> [] ->
  snd (get_inhom self nside)
  = Ok (concat (map (fun cw => get_pix nside
                                 (get_data (cache_pix nside (fst cw))))
                  (cats_weights self)),
        concat (map (fun cw => map z (rows (get_data (fst cw))))
                  (cats_weights self)),
        map (fun x => x / catweight_sum catweight_inhom (cats_weights self))
          (concat (map (fun cw => inhom_weights self (fst cw) (snd cw))
                     (cats_weights self)))).
Proof.
  intros Hskip Hne. unfold get_inhom.
  rewrite inhom_loop_eval by assumption.
  destruct (cats_weights self) as [| cw cws]; [contradiction |].
  reflexivity.
Qed.

Lemma get_inhom_contained_eval (self : GalCompleted A) (zGrid : list A)
  (nside : N) :
  skip_completeness self = false -> cats_weights self <> [] ->
  snd (get_inhom_contained self zGrid nside)
  = Ok (concat (map (fun cw => get_pix nside
                                 (get_data (cache_pix nside (fst cw))))
                  (cats_weights self)),
        mat_map (fun x => x / catweight_sum (catweight_contained zGrid)
                                (cats_weights self))
          (concat (map (fun cw =>
                          inhom_contained_weights self zGrid (fst cw) (snd cw))
                     (cats_weights self)))).
Proof.
  intros Hskip Hne. unfold get_inhom_contained.
  rewrite inhom_contained_loop_eval by assumption.
  destruct (cats_weights self) as [| cw cws]; [contradiction |].
  reflexivity.
Qed.

(** *** eval_hom at one query point *)

Lemma zip_with_lookup {T U V} (f : T -> U -> V) l1 l2 (k : nat) a b :
  l1 !! k = Some a -> l2 !! k = Some b ->
  zip_with f l1 l2 !! k = Some (f a b).
Proof.
  revert l2 k. induction l1 as [| x l1 IH]; intros [| y l2] [| k];
    simpl; try discriminate.
  - now intros [= ->] [= ->].
  - apply IH.
Qed.

Lemma combine_lookup {T U} (l1 : list T) (l2 : list U) (k : nat) a b :
  l1 !! k = Some a -> l2 !! k = Some b -> combine l1 l2 !! k = Some (a, b).
Proof.
  revert l2 k. induction l1 as [| x l1 IH]; intros [| y l2] [| k];
    simpl; try discriminate.
  - now intros [= ->] [= ->].
  - apply IH.
Qed.

Lemma map_lookup {T U} (f : T -> U) (l : list T) (k : nat) a :
  l !! k = Some a -> map f l !! k = Some (f a).
Proof.
  revert k. induction l as [| x l IH]; intros [| k]; simpl;
    try discriminate.
  - now intros [= ->].
  - apply IH.
Qed.

Lemma completeness_paired_lookup (c : GalCat A) ths phs zs (k : nat) th ph zz :
  ths !! k = Some th -> phs !! k = Some ph -> zs !! k = Some zz ->
  completeness_paired c ths phs zs !! k = Some (completeness c th ph zz).
Proof.
  intros Hth Hph Hz. unfold completeness_paired.
  now rewrite (zip_with_lookup _ _ _ k (th, ph) zz (combine_lookup _ _ _ _ _ Hth Hph) Hz).
Qed.

Lemma eval_hom_loop_eval (self : GalCompleted A) (ths phs zs : list A)
  (cws : list (GalCat A * A)) (ret : list A) (tot : A)
  (k : nat) (th ph zz r : A) :
  ths !! k = Some th -> phs !! k = Some ph -> zs !! k = Some zz ->
  ret !! k = Some r ->
  fst (eval_hom_loop self ths phs zs cws ret tot) !! k
  = Some (fold_left (fun s cw => s + hom_term self ths phs zs th ph zz cw)
            cws r) /\
  snd (eval_hom_loop self ths phs zs cws ret tot)
  = fold_left (fun t cw => t + catweight_hom ths phs zs (fst cw) (snd cw))
      cws tot.
Proof.
  intros Hth Hph Hz. revert ret tot r.
  induction cws as [| [c wt] cws IH]; intros ret tot r Hr; [now split |].
  cbn [eval_hom_loop fold_left]. apply IH.
  apply zip_with_lookup; [assumption |].
  unfold hom_term, catweight_hom; cbn [fst snd].
  apply (map_lookup (fun x => x * _)).
  apply (map_lookup (fun x => aone - confidence self x)).
  now apply completeness_paired_lookup.
Qed.
End Loops.

(** *** A single catalogue in the additive mode *)

Section SingleAdditive.
Context {A : Type} {AR : Arith A} {EX : External A}.
Local Open Scope arith_scope.

(** The completeness is not evaluated: the weights are those of the
    galaxies over the density goal and the weight of the catalogue. *)
Lemma get_inhom_single_additive (c : GalCat A) (wt : A) (mult : bool)
  (nside : N) :
  snd (get_inhom (mkGalCompleted [c] [wt] true mult) nside)
  = Ok (get_pix nside (get_data (cache_pix nside c)),
        map z (rows (get_data c)),
        map (fun g => w g / comovingDensityGoal (_completeness c) / wt)
          (rows (get_data c))).
Proof.
  unfold get_inhom, cats_weights. cbn [_galcats _catweights combine].
  cbn [inhom_loop]. unfold inhom_body, skip_completeness.
  cbn [_additive _galcats length Nat.eqb andb snd concat].
  rewrite !app_nil_r, !map_map, cache_pix_rows, cache_pix_completeness.
  reflexivity.
Qed.

Lemma get_inhom_contained_single_additive (c : GalCat A) (wt : A)
  (mult : bool) (zGrid : list A) (nside : N) :
  snd (get_inhom_contained (mkGalCompleted [c] [wt] true mult) zGrid nside)
  = Ok (get_pix nside (get_data (cache_pix nside c)),
        map (fun g =>
               map (fun k => k * w g / comovingDensityGoal (_completeness c)
                             / wt)
                 (bounded_keelin_3_discrete_probabilities zGrid g))
          (rows (get_data c))).
Proof.
  unfold get_inhom_contained, cats_weights.
  cbn [_galcats _catweights combine].
  cbn [inhom_contained_loop]. unfold inhom_contained_body, skip_completeness.
  cbn [_additive _galcats length Nat.eqb andb snd concat].
  unfold mat_map.
  rewrite !app_nil_r, !map_map, cache_pix_rows, cache_pix_completeness.
  f_equal. f_equal. apply map_ext. intros g. now rewrite !map_map.
Qed.
End SingleAdditive.

(** *** Several catalogues in the additive mode, over the reals *)

Section AdditiveReal.
Context {EX : External R}.

Lemma cancel_row (xs cs : list R) :
  length xs = length cs -> Forall (fun c => c <> 0%R) cs ->
  zip_with (@amul R real_arith)
    (zip_with (@adiv R real_arith) xs cs) cs = xs.
Proof.
  revert cs. induction xs as [| x xs IH]; intros [| c cs] Hlen Hnz;
    simpl in *; try discriminate; [reflexivity |].
  inversion Hnz; subst. rewrite IH by (assumption || lia).
  f_equal. field. assumption.
Qed.

Lemma zip_with_map_same {T U V W} (f : U -> V -> W) (g : T -> U) (h : T -> V)
  (l : list T) :
  zip_with f (map g l) (map h l) = map (fun x => f (g x) (h x)) l.
Proof. induction l; simpl; congruence. Qed.

Lemma confidence_additive (self : GalCompleted R) (compl : R) :
  _additive self = true -> _multiplicative self = false ->
  confidence self compl = compl.
Proof. intros Ha Hm. unfold confidence. now rewrite Hm, Ha. Qed.

Lemma completeness_nonzero (c : GalCat R) (th ph zz : R) :
  (forall th ph zz, 0 <= get (_completeness c) th ph zz)%R ->
  completeness c th ph zz <> 0%R.
Proof.
  intros Hpos. rewrite completeness_real. specialize (Hpos th ph zz). lra.
Qed.

(** The division by the completeness and the product by the confidence
    cancel: the completeness is left in the weight of the catalogue
    only. *)
Lemma inhom_weights_additive (self : GalCompleted R) (c : GalCat R) (wt : R) :
  _additive self = true -> _multiplicative self = false ->
  (forall th ph zz, 0 <= get (_completeness c) th ph zz)%R ->
  inhom_weights self c wt
  = map (fun g => w g * catweight_inhom c wt
                  / comovingDensityGoal (_completeness c))%R
      (rows (get_data c)).
Proof.
  intros Ha Hm Hpos. unfold inhom_weights. cbn zeta.
  rewrite (map_ext _ (fun x => x) (fun x => confidence_additive self x Ha Hm)).
  rewrite map_id, cancel_row.
  - rewrite !map_map. reflexivity.
  - now rewrite !length_map.
  - apply Forall_map_all. intros g. now apply completeness_nonzero.
Qed.

Lemma inhom_contained_weights_additive (self : GalCompleted R)
  (zGrid : list R) (c : GalCat R) (wt : R) :
  _additive self = true -> _multiplicative self = false ->
  (forall th ph zz, 0 <= get (_completeness c) th ph zz)%R ->
  (forall g, length (bounded_keelin_3_discrete_probabilities zGrid g)
             = length zGrid) ->
  inhom_contained_weights self zGrid c wt
  = map (fun g =>
           map (fun k => k * w g * catweight_contained zGrid c wt
                         / comovingDensityGoal (_completeness c))%R
             (bounded_keelin_3_discrete_probabilities zGrid g))
      (rows (get_data c)).
Proof.
  intros Ha Hm Hpos Hlen. unfold inhom_contained_weights, mat_map, mat_zip.
  cbn zeta.
  rewrite (map_ext (map (confidence self)) (fun row => row)).
  2: { intros row.
       rewrite (map_ext _ (fun x => x)
                  (fun x => confidence_additive self x Ha Hm)).
       apply map_id. }
  rewrite map_id, zip_with_map_same, zip_with_map_same, !map_map.
  apply map_ext. intros g. rewrite cancel_row.
  - rewrite !map_map. reflexivity.
  - now rewrite !length_map.
  - apply Forall_map_all. intros zz. now apply completeness_nonzero.
Qed.

Lemma concat_map_ext_in {T U} (f g : T -> list U) (l : list T) :
  (forall x, In x l -> f x = g x) -> concat (map f l) = concat (map g l).
Proof. intros H. f_equal. now apply map_ext_in. Qed.

Lemma skip_completeness_several (cats : list (GalCat R)) (ws : list R)
  (add mult : bool) :
  (2 <= length cats)%nat ->
  skip_completeness (mkGalCompleted cats ws add mult) = false.
Proof.
  intros Hlen. unfold skip_completeness. cbn [_additive _galcats].
  destruct (Nat.eqb_spec (length cats) 1); [lia |]. apply andb_false_r.
Qed.

Lemma combine_several {T U} (l1 : list T) (l2 : list U) :
  (2 <= length l1)%nat -> length l2 = length l1 ->
  exists p l, combine l1 l2 = p :: l.
Proof.
  destruct l1 as [| x l1], l2 as [| y l2]; simpl; intros; try lia.
  eauto.
Qed.
End AdditiveReal.

Lemma repeat_lookup {T} (x : T) (n k : nat) :
  (k < n)%nat -> repeat x n !! k = Some x.
Proof.
  revert k. induction n as [| n IH]; intros [| k] Hk; simpl; try lia.
  - reflexivity.
  - apply IH. lia.
Qed.

Lemma fold_left_ext_all {T U} (f g : T -> U -> T) (l : list U) (a : T) :
  (forall s x, f s x = g s x) -> fold_left f l a = fold_left g l a.
Proof.
  intros H. revert a. induction l as [| x l IH]; intros a; simpl;
    [reflexivity |]. now rewrite H, IH.
Qed.

Section AdditiveClaim.
Context {EX : External R}.
Local Open Scope R_scope.

(** In the additive mode [eval_hom] returns, at each query point, the
    sum over the catalogues of [catweight * (1 - completeness)] over the
    sum of the [catweight]. *)
Lemma eval_hom_additive (self : GalCompleted R) (ths phs zs : list R)
  (MC : bool) (k : nat) (th ph zz : R) :
  _additive self = true -> _multiplicative self = false ->
  length ths = length zs ->
  ths !! k = Some th -> phs !! k = Some ph -> zs !! k = Some zz ->
  exists ret,
    eval_hom self ths phs zs MC = Ok ret /\
    ret !! k
    = Some (catweight_sum
              (fun c wt => (1 - completeness c th ph zz)
                           * catweight_hom ths phs zs c wt)
              (cats_weights self)
            / catweight_sum (catweight_hom ths phs zs) (cats_weights self)).
Proof.
  intros Ha Hm Hlen Hth Hph Hz. unfold eval_hom.
  rewrite Hlen, Nat.eqb_refl, andb_false_r.
  assert (Hr : repeat (@azero R real_arith) (length zs) !! k = Some 0).
  { apply repeat_lookup. rewrite <- Hlen. eapply lookup_lt_Some, Hth. }
  destruct (eval_hom_loop_eval self ths phs zs (cats_weights self)
              (repeat azero (length zs)) azero k th ph zz 0 Hth Hph Hz Hr)
    as [Hret Htot].
  destruct (eval_hom_loop _ _ _ _ _ _ _) as [ret tot]. cbn [fst snd] in *.
  eexists. split; [reflexivity |].
  rewrite (map_lookup _ _ _ _ Hret), Htot. unfold catweight_sum.
  do 2 f_equal. apply fold_left_ext_all. intros s cw.
  unfold hom_term. now rewrite confidence_additive.
Qed.

(** C2, amended: in the additive mode the division by the completeness
    and the product by the confidence cancel, and the completeness
    enters the weights through the weight of the catalogue only, which
    is the weight given to [add_cat] times a mean of the completeness:
    over the selected galaxies in [get_inhom] ([catweight_inhom]), over
    the selected galaxies and the grid in [get_inhom_contained]
    ([catweight_contained]), over the query points in [eval_hom]
    ([catweight_hom]).  With one catalogue [get_inhom] and
    [get_inhom_contained] do not evaluate the completeness and their
    weights do not depend on it.  With two or more, the weight of a
    galaxy is its own weight times the weight of its catalogue over the
    density goal and over the sum of the weights of the catalogues.
    With any number of catalogues [eval_hom] is the sum of
    [catweight_hom * (1 - completeness)] over the sum of the
    [catweight_hom]; with one catalogue that is [1 - completeness], the
    weight of the catalogue not being zero. *)
Theorem additive_completeness_enters_by_catweight
  (cats : list (GalCat R)) (ws : list R) (zGrid ths phs zs : list R)
  (nside : N) (MC : bool) :
  let self := mkGalCompleted cats ws true false in
  let cws := cats_weights self in
  length ws = length cats ->
  (forall c, In c cats ->
     forall th ph zz, 0 <= get (_completeness c) th ph zz) ->
  (forall g, length (bounded_keelin_3_discrete_probabilities zGrid g)
             = length zGrid) ->
  length ths = length zs ->
  (forall c wt,
     snd (get_inhom (mkGalCompleted [c] [wt] true false) nside)
     = Ok (get_pix nside (get_data (cache_pix nside c)),
           map z (rows (get_data c)),
           map (fun g => w g / comovingDensityGoal (_completeness c) / wt)
             (rows (get_data c))) /\
     snd (get_inhom_contained (mkGalCompleted [c] [wt] true false)
            zGrid nside)
     = Ok (get_pix nside (get_data (cache_pix nside c)),
           map (fun g =>
                  map (fun k => k * w g
                                / comovingDensityGoal (_completeness c) / wt)
                    (bounded_keelin_3_discrete_probabilities zGrid g))
             (rows (get_data c)))) /\
  ((2 <= length cats)%nat ->
   snd (get_inhom self nside)
   = Ok (concat (map (fun cw => get_pix nside
                                  (get_data (cache_pix nside (fst cw)))) cws),
         concat (map (fun cw => map z (rows (get_data (fst cw)))) cws),
         concat (map (fun cw =>
                        map (fun g =>
                               w g * catweight_inhom (fst cw) (snd cw)
                               / comovingDensityGoal (_completeness (fst cw))
                               / catweight_sum catweight_inhom cws)
                          (rows (get_data (fst cw)))) cws)) /\
   snd (get_inhom_contained self zGrid nside)
   = Ok (concat (map (fun cw => get_pix nside
                                  (get_data (cache_pix nside (fst cw)))) cws),
         concat (map (fun cw =>
                        map (fun g =>
                               map (fun k =>
                                      k * w g
                                      * catweight_contained zGrid
                                          (fst cw) (snd cw)
                                      / comovingDensityGoal
                                          (_completeness (fst cw))
                                      / catweight_sum
                                          (catweight_contained zGrid) cws)
                                 (bounded_keelin_3_discrete_probabilities
                                    zGrid g))
                          (rows (get_data (fst cw)))) cws))) /\
  (forall k th ph zz,
     ths !! k = Some th -> phs !! k = Some ph -> zs !! k = Some zz ->
     exists ret,
       eval_hom self ths phs zs MC = Ok ret /\
       ret !! k
       = Some (catweight_sum
                 (fun c wt => (1 - completeness c th ph zz)
                              * catweight_hom ths phs zs c wt) cws
               / catweight_sum (catweight_hom ths phs zs) cws)) /\
  (forall c wt k th ph zz,
     ths !! k = Some th -> phs !! k = Some ph -> zs !! k = Some zz ->
     catweight_hom ths phs zs c wt <> 0 ->
     exists ret,
       eval_hom (mkGalCompleted [c] [wt] true false) ths phs zs MC = Ok ret /\
       ret !! k = Some (1 - completeness c th ph zz)).
Proof.
  intros self cws Hws Hpos Hkeelin Hlen.
  assert (Hin : forall cw, In cw cws ->
            forall th ph zz, 0 <= get (_completeness (fst cw)) th ph zz).
  { intros [c wt] Hcw. apply Hpos. eapply in_combine_l, Hcw. }
  split.
  { intros c wt. split.
    - exact (get_inhom_single_additive c wt false nside).
    - exact (get_inhom_contained_single_additive c wt false zGrid nside). }
  split; [| split].
  - intros Hcats.
    assert (Hskip : skip_completeness self = false)
      by now apply skip_completeness_several.
    assert (Hne : cats_weights self <> []).
    { destruct (combine_several cats ws Hcats Hws) as [p [l Hcws]].
      unfold cats_weights; cbn [self _galcats _catweights].
      now rewrite Hcws. }
    split.
    + rewrite get_inhom_eval by assumption. fold cws. do 2 f_equal.
      rewrite concat_map, map_map. apply concat_map_ext_in.
      intros cw Hcw. rewrite inhom_weights_additive by auto.
      rewrite map_map. reflexivity.
    + rewrite get_inhom_contained_eval by assumption. fold cws.
      do 2 f_equal.
      unfold mat_map. rewrite concat_map, map_map. apply concat_map_ext_in.
      intros cw Hcw. rewrite inhom_contained_weights_additive by auto.
      rewrite map_map. apply map_ext. intros g. now rewrite map_map.
  - intros k th ph zz Hth Hph Hz.
    now apply eval_hom_additive.
  - intros c wt k th ph zz Hth Hph Hz Hcw.
    destruct (eval_hom_additive (mkGalCompleted [c] [wt] true false)
                ths phs zs MC k th ph zz eq_refl eq_refl Hlen Hth Hph Hz)
      as [ret [Hret Hk]].
    exists ret. split; [exact Hret |]. rewrite Hk. f_equal.
    unfold catweight_sum, cats_weights.
    cbn [_galcats _catweights combine fold_left fst snd].
    change (@aadd R real_arith) with Rplus.
    change (@adiv R real_arith) with Rdiv.
    change (@azero R real_arith) with 0.
    field. lra.
Qed.
End AdditiveClaim.

(** Two catalogues of one galaxy each, with completeness models 1 and
    1/2 and weights 1. *)
Lemma additive_completeness_witness :
  let EX := example_external (A := R) in
  let catA := example_cat [example_gal 0 0] 1%R in
  let catB := example_cat [example_gal 0 1] (1 / 2)%R in
  let self := mkGalCompleted [catA; catB] [1%R; 1%R] true false in
  let cws := [(catA, 1%R); (catB, 1%R)] in
  snd (get_inhom self 128)
  = Ok (concat (map (fun cw => get_pix 128
                                 (get_data (cache_pix 128 (fst cw)))) cws),
        concat (map (fun cw => map z (rows (get_data (fst cw)))) cws),
        concat (map (fun cw =>
                       map (fun g =>
                              w g * catweight_inhom (fst cw) (snd cw)
                              / comovingDensityGoal (_completeness (fst cw))
                              / catweight_sum catweight_inhom cws)%R
                         (rows (get_data (fst cw)))) cws)).
Proof.
  intros EX catA catB self cws.
  refine (proj1 (proj1 (proj2
            (additive_completeness_enters_by_catweight
               [catA; catB] [1%R; 1%R] [1%R] [0%R] [0%R] [2%R] 128 true
               _ _ _ _)) _)).
  - reflexivity.
  - intros c [<- | [<- | []]] th ph zz; simpl; lra.
  - intros g. reflexivity.
  - reflexivity.
  - simpl. lia.
Defined.

(** C2 as stated fails in the additive mode, in both its halves.
    Catalogue A holds one galaxy and catalogue B another, both with
    weight 1; [np.exp] is not called in this mode.  When the
    completeness model of A returns 1 everywhere the two weights are
    0.5 and 0.5; when it returns 0.5 they are about 1/3 and 2/3: the
    weight of the galaxy of A follows the completeness at its own
    position, through [catweight].  And for one catalogue of weight 3
    whose completeness model returns 0.5 everywhere, [eval_hom] returns
    about 0.5 at a query point: not the weight of the catalogue times
    [1 - completeness], about 1.5, nor [catweight] times
    [1 - completeness], about 0.75, nor [1 - completeness] to the last
    bit. *)
Lemma additive_weight_depends_on_completeness :
  let AR := float_arith (fun x => x) in
  let EX := example_external in
  let both (v : float) :=
    add_cat (example_cat [example_gal 0 1] 1%float) 1%float
      (add_cat (example_cat [example_gal 0 0] v) 1%float
         (GalCompleted_init "add")) in
  let c := example_cat [] 0.5%float in
  let one := add_cat c 3%float (GalCompleted_init "add") in
  (snd (get_inhom (both 1%float) 128)
   = Ok ([0%Z; 0%Z], [2%float; 3%float], [0.5%float; 0.5%float]) /\
   snd (get_inhom (both 0.5%float) 128)
   = Ok ([0%Z; 0%Z], [2%float; 3%float],
         [0.3333333335555555%float; 0.66666666644444439%float]) /\
   snd (get_inhom_contained (both 1%float) [1%float] 128)
   = Ok ([0%Z; 0%Z], [[0.5%float]; [0.5%float]]) /\
   snd (get_inhom_contained (both 0.5%float) [1%float] 128)
   = Ok ([0%Z; 0%Z],
         [[0.3333333335555555%float]; [0.66666666644444439%float]]) /\
   PrimFloat.eqb 0.5 0.3333333335555555 = false) /\
  (eval_hom one [0%float] [0%float] [2%float] true
   = Ok [0.49999999899999997%float] /\
   (3 * (1 - completeness c 0 0 2))%float = 1.4999999970000002%float /\
   (catweight_hom [0%float] [0%float] [2%float] c 3
    * (1 - completeness c 0 0 2))%float = 0.74999999999999989%float /\
   (1 - completeness c 0 0 2)%float = 0.49999999900000003%float /\
   PrimFloat.eqb 0.49999999899999997 1.4999999970000002 = false /\
   PrimFloat.eqb 0.49999999899999997 0.74999999999999989 = false /\
   PrimFloat.eqb 0.49999999899999997 0.49999999900000003 = false).
Proof.
  intros. repeat split; vm_compute; reflexivity.
Qed.

(** ** The filter of include_vol_prior in binary64 *)

Section Binary64Order.
Local Open Scope float_scope.

Lemma SFcompare_antisym (f1 f2 : spec_float) :
  SFcompare f2 f1 = option_map CompOpp (SFcompare f1 f2).
Proof.
  destruct f1 as [s1 | s1 | | s1 m1 e1], f2 as [s2 | s2 | | s2 m2 e2];
    try destruct s1; try destruct s2; try reflexivity; simpl;
    rewrite (Z.compare_antisym e1 e2);
    destruct (e1 ?= e2)%Z; simpl; try reflexivity;
    rewrite ?CompOpp_involutive, Pos.compare_cont_antisym; reflexivity.
Qed.

Lemma not_nan_spec (x : float) : is_nan x = false -> Prim2SF x <> S754_nan.
Proof.
  unfold is_nan. rewrite FloatAxioms.eqb_spec. intros H Hnan.
  rewrite Hnan in H. discriminate.
Qed.

Lemma SFcompare_not_nan (f1 f2 : spec_float) :
  f1 <> S754_nan -> f2 <> S754_nan -> SFcompare f1 f2 <> None.
Proof.
  destruct f1, f2; simpl; congruence.
Qed.

(** Between two numbers that are not NaN, [not (b <= a)] is [a < b]. *)
Lemma leb_false_ltb (a b : float) :
  is_nan a = false -> is_nan b = false ->
  (b <=? a) = false -> (a <? b) = true.
Proof.
  intros Ha Hb. apply not_nan_spec in Ha, Hb.
  rewrite FloatAxioms.leb_spec, FloatAxioms.ltb_spec. unfold SFleb, SFltb.
  rewrite (SFcompare_antisym (Prim2SF a) (Prim2SF b)).
  pose proof (SFcompare_not_nan _ _ Ha Hb) as Hc.
  destruct (SFcompare (Prim2SF a) (Prim2SF b)) as [[| |] |]; simpl;
    congruence.
Qed.

(** Between two numbers that are not NaN, [not (a < b)] is [b <= a]. *)
Lemma ltb_false_leb (a b : float) :
  is_nan a = false -> is_nan b = false ->
  (a <? b) = false -> (b <=? a) = true.
Proof.
  intros Ha Hb. apply not_nan_spec in Ha, Hb.
  rewrite FloatAxioms.leb_spec, FloatAxioms.ltb_spec. unfold SFleb, SFltb.
  rewrite (SFcompare_antisym (Prim2SF a) (Prim2SF b)).
  pose proof (SFcompare_not_nan _ _ Ha Hb) as Hc.
  destruct (SFcompare (Prim2SF a) (Prim2SF b)) as [[| |] |]; simpl;
    congruence.
Qed.

(** A row of NaN is not unfeasible for the mask: every comparison with
    NaN is false. *)
Lemma unfeasible_nan (fexp : float -> float) :
  unfeasible (AR := float_arith fexp) (nan, nan, nan, nan, nan) = false.
Proof. reflexivity. Qed.

Lemma feasible_row_binary64 (fexp : float -> float) (g : Gal float) :
  no_nan g ->
  unfeasible (AR := float_arith fexp) (quantiles_of g) = false ->
  (z_lowerbound g <? z_lower g) = true /\ (z_lower g <? z g) = true /\
  (z g <? z_upper g) = true /\ (z_upper g <? z_upperbound g) = true /\
  (0 <=? z_lowerbound g) = true.
Proof.
  intros (H0 & H1 & H2 & H3 & H4). unfold unfeasible, quantiles_of; simpl.
  rewrite !orb_false_iff. intros ((((M1 & M2) & M3) & M4) & M5).
  repeat split; try (now apply leb_false_ltb).
  now apply ltb_false_leb.
Qed.

(** X1: in binary64 every row returned whose corrected quantiles are
    not NaN has them strictly increasing, from a lower bound that is not
    negative. *)
Theorem include_vol_prior_survivors_binary64 (fexp : float -> float)
  (EX : External float)
  (completion : list (nat * list (float * float * float * float * float))
                -> list (nat * list (float * float * float * float * float)))
  (df df' out : Table float) :
  include_vol_prior (AR := float_arith fexp) completion df = Ok (df', out) ->
  Forall (fun g =>
            no_nan g ->
            (z_lowerbound g <? z_lower g) = true /\
            (z_lower g <? z g) = true /\
            (z g <? z_upper g) = true /\
            (z_upper g <? z_upperbound g) = true /\
            (0 <=? z_lowerbound g) = true) (rows out).
Proof.
  intros Hcall. apply include_vol_prior_ok in Hcall.
  destruct Hcall as [res [Hlen [-> ->]]]. cbn [rows take_rows].
  rewrite select_feasible. apply List.Forall_forall. intros g Hg Hnan.
  apply filter_In in Hg. destruct Hg as [_ Hg].
  apply negb_true_iff in Hg. now apply (feasible_row_binary64 fexp).
Qed.
End Binary64Order.

Lemma include_vol_prior_survivors_binary64_witness :
  let AR := float_arith (fun x => x) in
  let EX := example_external in
  Forall (fun g =>
            no_nan g ->
            (z_lowerbound g <? z_lower g)%float = true /\
            (z_lower g <? z g)%float = true /\
            (z g <? z_upper g)%float = true /\
            (z_upper g <? z_upperbound g)%float = true /\
            (0 <=? z_lowerbound g)%float = true)
    (rows (example_table [example_gal 0 0])).
Proof.
  intros AR EX.
  apply (include_vol_prior_survivors_binary64 (fun x => x) EX (fun l => l)
           (example_table [example_gal 0 0; example_gal_swapped 0 1])
           (example_table [example_gal 0 0; example_gal_swapped 0 1])
           (example_table [example_gal 0 0])).
  vm_compute. reflexivity.
Defined.

(** ** What the filter of include_vol_prior returns in binary64 *)

Section Binary64Filter.
Local Open Scope float_scope.






End Binary64Filter.



(** * Further properties *)

(** ** The frames of a catalogue *)

Section Frames.
Context {A : Type} {AR : Arith A} {EX : External A}.

Lemma select_mask_map {T U} (f : T -> U) (mask : list bool) (l : list T) :
  select_mask mask (map f l) = map f (select_mask mask l).
Proof.
  revert l. induction mask as [| m mask IH]; intros [| x l]; simpl;
    try reflexivity.
  destruct m; simpl; now rewrite IH.
Qed.

Lemma select_mask_filter {T} (p : T -> bool) (l : list T) :
  select_mask (map p l) l = List.filter p l.
Proof.
  induction l as [| x l IH]; simpl; [reflexivity |].
  destruct (p x); now rewrite IH.
Qed.

Lemma pix_ok_set_pix (nside : N) (df : Table A) :
  pix_ok df -> pix_ok (set_pix nside (ang2pix_col nside df) df).
Proof.
  intros Hok n col. unfold set_pix; simpl. rewrite lookup_insert.
  destruct (decide (nside = n)) as [-> | Hne].
  - now intros [= <-].
  - intros Hcol. now apply Hok.
Qed.

Lemma pix_ok_take_rows (mask : list bool) (df : Table A) :
  pix_ok df -> pix_ok (take_rows mask df).
Proof.
  intros Hok n col. unfold take_rows; simpl. rewrite lookup_fmap.
  destruct (pixcols df !! n) as [col0 |] eqn:E; simpl; [| discriminate].
  intros [= <-]. rewrite (Hok n col0 E). unfold ang2pix_col; simpl.
  apply select_mask_map.
Qed.

Lemma get_pix_ok (nside : N) (df : Table A) :
  pix_ok df -> has_pix nside df = true ->
  get_pix nside df = ang2pix_col nside df.
Proof.
  unfold has_pix, get_pix. intros Hok.
  destruct (pixcols df !! nside) as [col |] eqn:E; [| discriminate].
  intros _. simpl. now apply Hok.
Qed.

Lemma get_pix_set_pix (nside : N) (col : list Z) (df : Table A) :
  get_pix nside (set_pix nside col df) = col.
Proof. unfold get_pix, set_pix; simpl. now rewrite lookup_insert_eq. Qed.

Lemma cat_ok_select_area (pixels : list Z) (nside : N) (c : GalCat A) :
  cat_ok c -> cat_ok (select_area pixels nside c).
Proof.
  intros [Hd _]. unfold cat_ok, select_area, get_data.
  destruct (has_pix nside (data c)); simpl;
    auto using pix_ok_take_rows, pix_ok_set_pix.
Qed.

Lemma cat_ok_set_z_range (zMin zMax : A) (c : GalCat A) :
  cat_ok c -> cat_ok (set_z_range_for_selection zMin zMax c).
Proof.
  intros [Hd Hs]. split; [exact Hd |].
  unfold set_z_range_for_selection, get_data at 1; simpl.
  now apply pix_ok_take_rows.
Qed.

Lemma cat_ok_cache_pix (nside : N) (c : GalCat A) :
  cat_ok c -> cat_ok (cache_pix nside c).
Proof.
  intros [Hd Hs]. unfold cat_ok, cache_pix, get_data in *.
  destruct (selectedData c) as [| d] eqn:Hsel;
    match goal with |- context [if ?b then _ else _] => destruct b end;
    simpl; rewrite ?Hsel; auto using pix_ok_set_pix.
Qed.

(** What any turn of the two loops does to the catalogue and returns
    for its pixels and redshifts, whatever the completion mode. *)
Lemma inhom_body_frame (self : GalCompleted A) (nside : N) (c : GalCat A)
  (wt tot : A) :
  exists weights tot',
    inhom_body self nside c wt tot
    = (cache_pix nside c, get_pix nside (get_data (cache_pix nside c)),
       map z (rows (get_data c)), weights, tot') /\
    length weights = length (rows (get_data c)).
Proof.
  unfold inhom_body. rewrite cache_pix_rows.
  destruct (skip_completeness self); eexists _, _; (split; [reflexivity |]).
  - now rewrite !length_map.
  - rewrite completeness_paired_rows, !length_map.
    generalize (rows (get_data c)) as gs. intros gs.
    induction gs as [| g gs IH]; simpl; congruence.
Qed.

Lemma inhom_contained_body_frame (self : GalCompleted A) (zGrid : list A)
  (nside : N) (c : GalCat A) (wt tot : A) :
  exists weights tot',
    inhom_contained_body self zGrid nside c wt tot
    = (cache_pix nside c, get_pix nside (get_data (cache_pix nside c)),
       weights, tot') /\
    length weights = length (rows (get_data c)).
Proof.
  unfold inhom_contained_body. rewrite cache_pix_rows.
  destruct (skip_completeness self); eexists _, _; (split; [reflexivity |]).
  - unfold mat_map. now rewrite !length_map.
  - rewrite completeness_grid_rows. unfold mat_map, mat_zip.
    rewrite !length_map.
    generalize (rows (get_data c)) as gs. intros gs.
    induction gs as [| g gs IH]; simpl; congruence.
Qed.

Lemma inhom_loop_frame (self : GalCompleted A) (nside : N)
  (cws : list (GalCat A * A)) (tot : A) :
  exists allweights tot',
    inhom_loop self nside cws tot
    = (map (fun cw => cache_pix nside (fst cw)) cws,
       map (fun cw => get_pix nside (get_data (cache_pix nside (fst cw)))) cws,
       map (fun cw => map z (rows (get_data (fst cw)))) cws,
       allweights, tot') /\
    map (@length A) allweights
    = map (fun cw => length (rows (get_data (fst cw)))) cws.
Proof.
  revert tot. induction cws as [| [c wt] cws IH]; intros tot.
  - eexists _, _. split; reflexivity.
  - cbn [inhom_loop].
    destruct (inhom_body_frame self nside c wt tot) as (ws & t1 & -> & Hlen).
    destruct (IH t1) as (aw & t2 & -> & Hlens).
    eexists _, _. split; [reflexivity |]. cbn [map fst]. congruence.
Qed.

Lemma inhom_contained_loop_frame (self : GalCompleted A) (zGrid : list A)
  (nside : N) (cws : list (GalCat A * A)) (tot : A) :
  exists allweights tot',
    inhom_contained_loop self zGrid nside cws tot
    = (map (fun cw => cache_pix nside (fst cw)) cws,
       map (fun cw => get_pix nside (get_data (cache_pix nside (fst cw)))) cws,
       allweights, tot') /\
    map (@length (list A)) allweights
    = map (fun cw => length (rows (get_data (fst cw)))) cws.
Proof.
  revert tot. induction cws as [| [c wt] cws IH]; intros tot.
  - eexists _, _. split; reflexivity.
  - cbn [inhom_contained_loop].
    destruct (inhom_contained_body_frame self zGrid nside c wt tot)
      as (ws & t1 & -> & Hlen).
    destruct (IH t1) as (aw & t2 & -> & Hlens).
    eexists _, _. split; [reflexivity |]. cbn [map fst]. congruence.
Qed.

(** The catalogues after either call: each of the zipped ones with its
    pixel column cached, the others as they were. *)
Lemma get_inhom_galcats (self : GalCompleted A) (nside : N) :
  _galcats (fst (get_inhom self nside))
  = map (fun cw => cache_pix nside (fst cw)) (cats_weights self)
    ++ skipn (length (cats_weights self)) (_galcats self).
Proof.
  unfold get_inhom.
  destruct (inhom_loop_frame self nside (cats_weights self) azero)
    as (aw & t & -> & _).
  cbn [fst put_galcats set_galcats _galcats]. now rewrite length_map.
Qed.

Lemma get_inhom_contained_galcats (self : GalCompleted A) (zGrid : list A)
  (nside : N) :
  _galcats (fst (get_inhom_contained self zGrid nside))
  = map (fun cw => cache_pix nside (fst cw)) (cats_weights self)
    ++ skipn (length (cats_weights self)) (_galcats self).
Proof.
  unfold get_inhom_contained.
  destruct (inhom_contained_loop_frame self zGrid nside (cats_weights self)
              azero) as (aw & t & -> & _).
  cbn [fst put_galcats set_galcats _galcats]. now rewrite length_map.
Qed.

Lemma Forall_cat_ok_cached (nside : N) (self : GalCompleted A) :
  Forall cat_ok (_galcats self) ->
  Forall cat_ok
    (map (fun cw => cache_pix nside (fst cw)) (cats_weights self)
     ++ skipn (length (cats_weights self)) (_galcats self)).
Proof.
  intros Hok. apply Forall_app. split.
  - apply List.Forall_forall. intros c Hc. apply in_map_iff in Hc.
    destruct Hc as [[c0 wt] [<- Hin]]. apply cat_ok_cache_pix.
    apply in_combine_l in Hin.
    eapply List.Forall_forall in Hok; eauto.
  - apply List.Forall_forall. intros c Hc.
    eapply List.Forall_forall in Hok; eauto.
    rewrite <- (firstn_skipn (length (cats_weights self)) (_galcats self)).
    apply in_or_app. now right.
Qed.

(** X3: a cached pixel column is never stale.  If every pixel column of
    the loaded table is [hp.ang2pix] of its rows (as when it has none),
    this holds for the table and for the selection of the catalogue
    after [select_area], after [set_z_range_for_selection] and after the
    aggregator has cached a column, hence for every catalogue after
    [get_inhom] and [get_inhom_contained]. *)
Theorem cached_pixels_are_ang2pix :
  (forall df compl, pix_ok df -> cat_ok (GalCat_init df compl)) /\
  (forall c pixels nside zMin zMax,
     cat_ok c ->
     cat_ok (select_area pixels nside c) /\
     cat_ok (set_z_range_for_selection zMin zMax c) /\
     cat_ok (cache_pix nside c)) /\
  (forall self zGrid nside,
     Forall cat_ok (_galcats self) ->
     Forall cat_ok (_galcats (fst (get_inhom self nside))) /\
     Forall cat_ok (_galcats (fst (get_inhom_contained self zGrid nside)))).
Proof.
  split; [intros df compl Hok; split; exact Hok |].
  split.
  - intros c pixels nside zMin zMax Hok.
    auto using cat_ok_select_area, cat_ok_set_z_range, cat_ok_cache_pix.
  - intros self zGrid nside Hok.
    rewrite get_inhom_galcats, get_inhom_contained_galcats.
    split; now apply Forall_cat_ok_cached.
Qed.
End Frames.

(** ** Selections *)

Section Selections.
Context {A : Type} {AR : Arith A} {EX : External A}.

Lemma select_area_data_rows (pixels : list Z) (nside : N) (c : GalCat A) :
  rows (data (select_area pixels nside c)) = rows (data c).
Proof.
  unfold select_area. now destruct (has_pix nside (data c)).
Qed.

Lemma select_area_rows (pixels : list Z) (nside : N) (c : GalCat A) :
  pix_ok (data c) ->
  rows (get_data (select_area pixels nside c))
  = List.filter
      (fun g => in_pixels pixels (ang2pix nside (theta g) (phi g)))
      (rows (data c)).
Proof.
  intros Hok. unfold select_area, get_data.
  destruct (has_pix nside (data c)) eqn:E; cbn [selectedData take_rows rows].
  - rewrite (get_pix_ok nside (data c) Hok E). unfold ang2pix_col.
    rewrite map_map. apply select_mask_filter.
  - rewrite get_pix_set_pix. unfold ang2pix_col, set_pix; cbn [rows].
    rewrite map_map. apply select_mask_filter.
Qed.

(** X4: [select_area(pixels, nside)] keeps every row of the full table
    and selects from it, in order, exactly the rows whose pixel at
    [nside] is in [pixels], provided the cached pixel columns of the
    table are those of its rows. *)
Theorem select_area_selects_pixels (pixels : list Z) (nside : N)
  (c : GalCat A) :
  pix_ok (data c) ->
  rows (data (select_area pixels nside c)) = rows (data c) /\
  rows (get_data (select_area pixels nside c))
  = List.filter
      (fun g => in_pixels pixels (ang2pix nside (theta g) (phi g)))
      (rows (data c)) /\
  (forall g,
     In g (rows (get_data (select_area pixels nside c))) <->
     In g (rows (data c)) /\
     In (ang2pix nside (theta g) (phi g)) pixels).
Proof.
  intros Hok. split; [apply select_area_data_rows |].
  split; [now apply select_area_rows |].
  intros g. rewrite select_area_rows by assumption.
  rewrite filter_In. unfold in_pixels. rewrite existsb_exists.
  split.
  - intros [Hin [p [Hp Heq]]]. apply Z.eqb_eq in Heq. now subst.
  - intros [Hin Hp]. split; [assumption |].
    eexists. split; [exact Hp | apply Z.eqb_refl].
Qed.

Lemma select_area_has_pix (pixels : list Z) (nside : N) (c : GalCat A) :
  has_pix nside (data (select_area pixels nside c)) = true.
Proof.
  unfold select_area.
  destruct (has_pix nside (data c)) eqn:E; simpl;
    [exact E | apply has_pix_set_pix].
Qed.

(** X5: [select_area] replaces the selection, it does not narrow it: a
    redshift range set before is forgotten, and a second [select_area]
    at the same resolution gives what it gives alone, without running
    [hp.ang2pix] again. *)
Theorem select_area_replaces_selection (pixels pixels' : list Z) (nside : N)
  (zMin zMax : A) (c : GalCat A) :
  select_area pixels nside (set_z_range_for_selection zMin zMax c)
  = select_area pixels nside c /\
  select_area pixels nside (select_area pixels' nside c)
  = select_area pixels nside c /\
  ang2pix_calls (select_area pixels nside (select_area pixels' nside c))
  = ang2pix_calls (select_area pixels' nside c).
Proof.
  split; [reflexivity |].
  assert (H : select_area pixels nside (select_area pixels' nside c)
              = select_area pixels nside c).
  { unfold select_area at 1. rewrite select_area_has_pix.
    unfold select_area. now destruct (has_pix nside (data c)). }
  split; [exact H |].
  rewrite H. unfold select_area. now destruct (has_pix nside (data c)).
Qed.

Lemma z_range_rows (zMin zMax : A) (c : GalCat A) :
  rows (get_data (set_z_range_for_selection zMin zMax c))
  = List.filter (fun g => aleb zMin (z g) && altb (z g) zMax)
      (rows (get_data c)).
Proof.
  unfold set_z_range_for_selection, get_data at 1;
    cbn [selectedData take_rows rows].
  apply select_mask_filter.
Qed.

Lemma filter_length_le {T} (p : T -> bool) (l : list T) :
  (length (List.filter p l) <= length l)%nat.
Proof.
  induction l as [| x l IH]; simpl; [lia |]. destruct (p x); simpl; lia.
Qed.

Lemma filter_filter {T} (p q : T -> bool) (l : list T) :
  List.filter p (List.filter q l) = List.filter (fun x => q x && p x) l.
Proof.
  induction l as [| x l IH]; simpl; [reflexivity |].
  destruct (q x); simpl; [destruct (p x) |]; now rewrite IH.
Qed.

(** X6: [set_z_range_for_selection(zMin, zMax)] leaves the full table
    alone and keeps, in order, the rows of the current selection with
    [zMin <= z < zMax]; so it never selects more rows than before, and
    two ranges in a row select the rows that are in both. *)
Theorem z_range_narrows_selection (zMin zMax zMin' zMax' : A) (c : GalCat A) :
  data (set_z_range_for_selection zMin zMax c) = data c /\
  rows (get_data (set_z_range_for_selection zMin zMax c))
  = List.filter (fun g => aleb zMin (z g) && altb (z g) zMax)
      (rows (get_data c)) /\
  (count_selection (set_z_range_for_selection zMin zMax c)
   <= count_selection c)%nat /\
  rows (get_data (set_z_range_for_selection zMin' zMax'
                    (set_z_range_for_selection zMin zMax c)))
  = List.filter (fun g => (aleb zMin (z g) && altb (z g) zMax)
                          && (aleb zMin' (z g) && altb (z g) zMax'))
      (rows (get_data c)).
Proof.
  split; [reflexivity |]. split; [apply z_range_rows |].
  split.
  - unfold count_selection. rewrite z_range_rows. apply filter_length_le.
  - rewrite !z_range_rows. apply filter_filter.
Qed.
End Selections.

(** ** The shapes of what the aggregator returns *)

Section Shapes.
Context {A : Type} {AR : Arith A} {EX : External A}.

Lemma has_pix_cache_pix (nside : N) (c : GalCat A) :
  has_pix nside (get_data (cache_pix nside c)) = true.
Proof.
  unfold cache_pix.
  destruct (has_pix nside (get_data c)) eqn:E; [exact E |].
  unfold get_data. destruct (selectedData c); simpl; apply has_pix_set_pix.
Qed.

Lemma length_cached_pix (nside : N) (c : GalCat A) :
  cat_ok c ->
  length (get_pix nside (get_data (cache_pix nside c)))
  = length (rows (get_data c)).
Proof.
  intros Hok. destruct (cat_ok_cache_pix nside c Hok) as [_ Hsel].
  rewrite (get_pix_ok nside _ Hsel (has_pix_cache_pix nside c)).
  unfold ang2pix_col. now rewrite length_map, cache_pix_rows.
Qed.

Lemma length_zip_with_same {T U V} (f : T -> U -> V) l1 l2 :
  length l1 = length l2 -> length (zip_with f l1 l2) = length l1.
Proof.
  revert l2. induction l1 as [| x l1 IH]; intros [| y l2]; simpl;
    try discriminate; [reflexivity |].
  intros [= H]. now rewrite IH.
Qed.

Lemma rows_len_map {T U} (n : nat) (f : T -> U) (m : list (list T)) :
  Forall (fun row => length row = n) m ->
  Forall (fun row => length row = n) (map (map f) m).
Proof.
  induction 1; simpl; constructor; [now rewrite length_map | assumption].
Qed.

Lemma rows_len_zip {T U V} (n : nat) (f : T -> U -> V) m1 m2 :
  Forall (fun row => length row = n) m1 ->
  Forall (fun row => length row = n) m2 ->
  Forall (fun row => length row = n) (zip_with (zip_with f) m1 m2).
Proof.
  intros H1. revert m2. induction H1 as [| r1 m1 Hr1 _ IH];
    intros m2 H2; [constructor |].
  destruct H2 as [| r2 m2 Hr2 H2]; simpl; constructor.
  - rewrite length_zip_with_same; congruence.
  - now apply IH.
Qed.

Lemma inhom_contained_body_rows (self : GalCompleted A) (zGrid : list A)
  (nside : N) (c : GalCat A) (wt tot : A) :
  (forall g, length (bounded_keelin_3_discrete_probabilities zGrid g)
             = length zGrid) ->
  Forall (fun row => length row = length zGrid)
    (snd (fst (inhom_contained_body self zGrid nside c wt tot))).
Proof.
  intros Hk. unfold inhom_contained_body. rewrite cache_pix_rows.
  assert (H0 : Forall (fun row => length row = length zGrid)
                 (map (fun g => map (fun k => amul k (w g))
                                  (bounded_keelin_3_discrete_probabilities
                                     zGrid g))
                    (rows (get_data c)))).
  { apply Forall_map_all. intros g. now rewrite length_map. }
  destruct (skip_completeness self); cbn [fst snd]; unfold mat_map, mat_zip.
  - now apply rows_len_map.
  - rewrite completeness_grid_rows.
    assert (Hc : Forall (fun row => length row = length zGrid)
                   (map (fun g => map (completeness
                                         (cache_pix nside c)
                                         (theta g) (phi g)) zGrid)
                      (rows (get_data c)))).
    { apply Forall_map_all. intros g. now rewrite length_map. }
    auto using rows_len_map, rows_len_zip.
Qed.

Lemma inhom_contained_loop_rows (self : GalCompleted A) (zGrid : list A)
  (nside : N) (cws : list (GalCat A * A)) (tot : A) :
  (forall g, length (bounded_keelin_3_discrete_probabilities zGrid g)
             = length zGrid) ->
  Forall (Forall (fun row => length row = length zGrid))
    (snd (fst (inhom_contained_loop self zGrid nside cws tot))).
Proof.
  intros Hk. revert tot. induction cws as [| [c wt] cws IH]; intros tot;
    [constructor |].
  cbn [inhom_contained_loop].
  pose proof (inhom_contained_body_rows self zGrid nside c wt tot Hk) as Hb.
  destruct (inhom_contained_body self zGrid nside c wt tot)
    as [[[c' p] ws] t1].
  specialize (IH t1).
  destruct (inhom_contained_loop self zGrid nside cws t1)
    as [[[cs ps] aw] t2].
  cbn [fst snd] in *. now constructor.
Qed.

Lemma Forall_concat {T} (P : T -> Prop) (ls : list (list T)) :
  Forall (Forall P) ls -> Forall P (concat ls).
Proof.
  induction 1; simpl; [constructor | apply Forall_app; now split].
Qed.

Lemma length_concat_map {T U} (f : T -> list U) (l : list T) :
  length (concat (map f l)) = list_sum (map (fun x => length (f x)) l).
Proof.
  induction l as [| x l IH]; simpl; [reflexivity |].
  now rewrite length_app, IH.
Qed.

Lemma length_concat_lengths {T} (ls : list (list T)) :
  length (concat ls) = list_sum (map (@length T) ls).
Proof.
  induction ls as [| l ls IH]; simpl; [reflexivity |].
  now rewrite length_app, IH.
Qed.

Lemma map_fst_combine {T U} (l1 : list T) (l2 : list U) :
  length l2 = length l1 -> map fst (combine l1 l2) = l1.
Proof.
  revert l2. induction l1 as [| x l1 IH]; intros [| y l2]; simpl;
    try discriminate; [reflexivity |].
  intros [= H]. now rewrite IH.
Qed.

Lemma selection_counts (self : GalCompleted A) :
  length (_catweights self) = length (_galcats self) ->
  list_sum (map (fun cw => length (rows (get_data (fst cw))))
              (cats_weights self))
  = list_sum (GalCompleted_count_selection self).
Proof.
  intros Hlen. unfold GalCompleted_count_selection, cats_weights.
  rewrite <- (map_fst_combine (_galcats self) (_catweights self) Hlen) at 2.
  now rewrite map_map.
Qed.

Lemma pixel_counts (self : GalCompleted A) (nside : N) :
  Forall cat_ok (_galcats self) ->
  map (fun cw => length (get_pix nside (get_data (cache_pix nside (fst cw)))))
    (cats_weights self)
  = map (fun cw => length (rows (get_data (fst cw)))) (cats_weights self).
Proof.
  intros Hok. apply map_ext_in. intros [c wt] Hin. cbn [fst].
  apply length_cached_pix. apply in_combine_l in Hin.
  eapply List.Forall_forall in Hok; eauto.
Qed.

Lemma cats_weights_nonempty (self : GalCompleted A) :
  length (_catweights self) = length (_galcats self) ->
  _galcats self <> [] -> cats_weights self <> [].
Proof.
  unfold cats_weights.
  destruct (_galcats self), (_catweights self); simpl; congruence.
Qed.

(** X7: with a weight per catalogue and at least one catalogue, the two
    calls return, and their arrays line up: [get_inhom] returns as many
    pixels, redshifts and weights as there are selected galaxies over
    all the catalogues, and [get_inhom_contained] as many pixels and
    rows of weights, each row as long as the redshift grid. *)
Theorem aggregator_output_shapes (self : GalCompleted A) (zGrid : list A)
  (nside : N) :
  Forall cat_ok (_galcats self) ->
  length (_catweights self) = length (_galcats self) ->
  _galcats self <> [] ->
  (forall g, length (bounded_keelin_3_discrete_probabilities zGrid g)
             = length zGrid) ->
  (exists pixels redshifts weights,
     snd (get_inhom self nside) = Ok (pixels, redshifts, weights) /\
     length pixels = list_sum (GalCompleted_count_selection self) /\
     length redshifts = list_sum (GalCompleted_count_selection self) /\
     length weights = list_sum (GalCompleted_count_selection self)) /\
  (exists pixels weights,
     snd (get_inhom_contained self zGrid nside) = Ok (pixels, weights) /\
     length pixels = list_sum (GalCompleted_count_selection self) /\
     length weights = list_sum (GalCompleted_count_selection self) /\
     Forall (fun row => length row = length zGrid) weights).
Proof.
  intros Hok Hlen Hne Hk.
  pose proof (cats_weights_nonempty self Hlen Hne) as Hcws.
  pose proof (selection_counts self Hlen) as Hsum.
  pose proof (pixel_counts self nside Hok) as Hpix.
  split.
  - unfold get_inhom.
    destruct (inhom_loop_frame self nside (cats_weights self) azero)
      as (aw & t & -> & Haw).
    cbn [snd]. destruct aw as [| a aw].
    { destruct (cats_weights self); [congruence | discriminate]. }
    eexists _, _, _. split; [reflexivity |].
    rewrite length_map, !length_concat_map, length_concat_lengths.
    rewrite (map_ext _ _ (fun cw => length_map z (rows (get_data (fst cw))))).
    rewrite Haw, Hpix, Hsum. auto.
  - unfold get_inhom_contained.
    pose proof (inhom_contained_loop_rows self zGrid nside
                  (cats_weights self) azero Hk) as Hrows.
    destruct (inhom_contained_loop_frame self zGrid nside
                (cats_weights self) azero) as (aw & t & Heq & Haw).
    rewrite Heq in Hrows |- *. cbn [fst snd] in *.
    destruct aw as [| a aw].
    { destruct (cats_weights self); [congruence | discriminate]. }
    eexists _, _. split; [reflexivity |].
    unfold mat_map. rewrite length_map, length_concat_map,
      length_concat_lengths, Haw, Hpix, Hsum.
    repeat split; auto.
    apply rows_len_map. now apply Forall_concat.
Qed.
End Shapes.

(** A table without pixel columns, as [load] leaves it. *)
Lemma pix_ok_no_column {A : Type} {EX : External A} (df : Table A) :
  pixcols df = ∅ -> pix_ok df.
Proof. intros H n col. rewrite H, lookup_empty. discriminate. Qed.

Lemma cat_ok_example {A : Type} {AR : Arith A} {EX : External A}
  (gs : list (Gal A)) (v : A) :
  cat_ok (example_cat gs v).
Proof. split; now apply pix_ok_no_column. Qed.

(** Two galaxies in pixels 0 and 1, pixel 0 selected. *)
Lemma select_area_selects_pixels_witness :
  let AR := float_arith (fun x => x) in
  let EX := example_external in
  let c := example_cat [example_gal 0 0; example_gal 2 1] 1%float in
  rows (get_data (select_area [0%Z] 128 c))
  = List.filter
      (fun g => in_pixels [0%Z] (ang2pix 128 (theta g) (phi g)))
      (rows (data c)).
Proof.
  intros AR EX c.
  refine (proj1 (proj2 (select_area_selects_pixels [0%Z] 128 c _))).
  now apply pix_ok_no_column.
Defined.

(** Two catalogues with two galaxies and one. *)
Lemma aggregator_output_shapes_witness :
  let AR := float_arith (fun x => x) in
  let EX := example_external in
  let self :=
    add_cat (example_cat [example_gal 2 2] 1%float) 0.3%float
      (add_cat (example_cat [example_gal 0 0; example_gal 0 1] 1%float)
         0.7%float (GalCompleted_init "mix")) in
  exists pixels redshifts weights,
    snd (get_inhom self 128) = Ok (pixels, redshifts, weights) /\
    length pixels = 3%nat /\ length redshifts = 3%nat /\
    length weights = 3%nat.
Proof.
  intros AR EX self.
  refine (proj1 (aggregator_output_shapes self [1%float] 128 _ _ _ _)).
  - repeat constructor; apply cat_ok_example.
  - reflexivity.
  - discriminate.
  - intros g. reflexivity.
Defined.

(** ** NaN in the average over the catalogues *)

Section NaN.
Local Open Scope float_scope.

Lemma SFcompare_refl (f : spec_float) :
  f <> S754_nan -> SFcompare f f = Some Eq.
Proof.
  destruct f as [s | s | | s m e]; simpl; try congruence; intros _.
  - now destruct s.
  - rewrite Z.compare_refl, Pos.compare_cont_refl. now destruct s.
Qed.

Lemma is_nan_spec (x : float) : is_nan x = true -> Prim2SF x = S754_nan.
Proof.
  unfold is_nan. rewrite FloatAxioms.eqb_spec. unfold SFeqb. intros H.
  destruct (Prim2SF x) as [s | s | | s m e] eqn:E; [| | reflexivity |];
    rewrite SFcompare_refl in H by discriminate; discriminate.
Qed.

Lemma is_nan_of_spec (x : float) : Prim2SF x = S754_nan -> is_nan x = true.
Proof.
  intros E. unfold is_nan. now rewrite FloatAxioms.eqb_spec, E.
Qed.

(** NaN goes through the sum, the product and the quotient. *)
Lemma is_nan_add_l (a b : float) : is_nan a = true -> is_nan (a + b) = true.
Proof.
  intros H. apply is_nan_spec in H. apply is_nan_of_spec.
  now rewrite FloatAxioms.add_spec, H.
Qed.

Lemma is_nan_add_r (a b : float) : is_nan b = true -> is_nan (a + b) = true.
Proof.
  intros H. apply is_nan_spec in H. apply is_nan_of_spec.
  rewrite FloatAxioms.add_spec, H. now destruct (Prim2SF a).
Qed.

Lemma is_nan_mul_r (a b : float) : is_nan b = true -> is_nan (a * b) = true.
Proof.
  intros H. apply is_nan_spec in H. apply is_nan_of_spec.
  rewrite FloatAxioms.mul_spec, H. now destruct (Prim2SF a).
Qed.

Lemma is_nan_div_r (a b : float) : is_nan b = true -> is_nan (a / b) = true.
Proof.
  intros H. apply is_nan_spec in H. apply is_nan_of_spec.
  rewrite FloatAxioms.div_spec, H. now destruct (Prim2SF a).
Qed.
End NaN.

Section Poison.
Context (fexp : float -> float) {EX : External float}.

(** The sum of the [catweight] is NaN as soon as one of them is. *)
Lemma catweight_fold_nan (catweight : GalCat float -> float -> float)
  (cws : list (GalCat float * float)) (tot : float) :
  is_nan tot = true
  \/ (exists cw, In cw cws /\ is_nan (catweight (fst cw) (snd cw)) = true) ->
  is_nan (fold_left (fun t cw => aadd (Arith := float_arith fexp) t
                                   (catweight (fst cw) (snd cw))) cws tot)
  = true.
Proof.
  revert tot. induction cws as [| cw cws IH]; intros tot H; simpl.
  - destruct H as [H | [cw [[] _]]]. exact H.
  - apply IH. destruct H as [H | [cw' [[<- | Hin] Hn]]].
    + left. now apply is_nan_add_l.
    + left. now apply is_nan_add_r.
    + right. eauto.
Qed.

Lemma mean_nil_nan : is_nan (mean (AR := float_arith fexp) []) = true.
Proof. reflexivity. Qed.

Lemma catweight_inhom_empty (c : GalCat float) (wt : float) :
  rows (get_data c) = [] ->
  is_nan (catweight_inhom (AR := float_arith fexp) c wt) = true.
Proof.
  intros H. unfold catweight_inhom. cbn zeta. rewrite H.
  apply is_nan_mul_r. reflexivity.
Qed.

Lemma catweight_contained_empty (zGrid : list float) (c : GalCat float)
  (wt : float) :
  rows (get_data c) = [] ->
  is_nan (catweight_contained (AR := float_arith fexp) zGrid c wt) = true.
Proof.
  intros H. unfold catweight_contained. cbn zeta. rewrite H.
  apply is_nan_mul_r. reflexivity.
Qed.

(** X8: in binary64, unless the aggregator is additive with a single
    catalogue, one catalogue whose selection has no row makes
    [catweightTotal] NaN: [get_inhom] and [get_inhom_contained] still
    return, and every weight they return, for every galaxy of every
    catalogue, is NaN. *)
Theorem empty_selection_poisons_every_weight (self : GalCompleted float)
  (zGrid : list float) (nside : N) (c : GalCat float) (wt : float) :
  skip_completeness self = false ->
  In (c, wt) (cats_weights self) ->
  rows (get_data c) = [] ->
  (exists pixels redshifts weights,
     snd (get_inhom (AR := float_arith fexp) self nside)
     = Ok (pixels, redshifts, weights) /\
     Forall (fun x => is_nan x = true) weights) /\
  (exists pixels weights,
     snd (get_inhom_contained (AR := float_arith fexp) self zGrid nside)
     = Ok (pixels, weights) /\
     Forall (Forall (fun x => is_nan x = true)) weights).
Proof.
  intros Hskip Hin Hrows.
  assert (Hne : cats_weights self <> []) by (intros E; now rewrite E in Hin).
  split.
  - rewrite (get_inhom_eval (AR := float_arith fexp)) by assumption.
    eexists _, _, _. split; [reflexivity |].
    apply Forall_map_all. intros x. apply is_nan_div_r.
    apply catweight_fold_nan. right. exists (c, wt). split; [assumption |].
    now apply catweight_inhom_empty.
  - rewrite (get_inhom_contained_eval (AR := float_arith fexp))
      by assumption.
    eexists _, _. split; [reflexivity |].
    unfold mat_map. apply Forall_map_all. intros row.
    apply Forall_map_all. intros x. apply is_nan_div_r.
    apply catweight_fold_nan. right. exists (c, wt). split; [assumption |].
    now apply catweight_contained_empty.
Qed.
End Poison.

(** The two catalogues of [empty_selection_gives_nan], with the
    identity for [np.exp]. *)
Lemma empty_selection_poisons_witness :
  let AR := float_arith (fun x => x) in
  let EX := example_external in
  let catA := example_cat [example_gal 0 0; example_gal 0 1] 1%float in
  let catB := example_cat [example_gal 2 2] 1%float in
  let both :=
    GalCompleted_select_area [0%Z] 128
      (add_cat catB 0.3%float
         (add_cat catA 0.7%float (GalCompleted_init "mix"))) in
  exists pixels redshifts weights,
    snd (get_inhom both 128) = Ok (pixels, redshifts, weights) /\
    Forall (fun x => is_nan x = true) weights.
Proof.
  intros AR EX catA catB both.
  refine (proj1 (empty_selection_poisons_every_weight (fun x => x) both
                   [1%float] 128 (select_area [0%Z] 128 catB) 0.3%float
                   _ _ _)).
  - reflexivity.
  - right. left. reflexivity.
  - reflexivity.
Defined.

(** ** eval_hom at a query point *)

Section EvalHomAt.
Context {A : Type} {AR : Arith A}.
Local Open Scope arith_scope.

(** For query arrays of one length, [eval_hom] returns, and what it
    returns at a query point is the sum of the terms of the catalogues
    there over the sum of their weights. *)
Lemma eval_hom_at (self : GalCompleted A) (ths phs zs : list A) (MC : bool)
  (k : nat) (th ph zz : A) :
  length ths = length zs ->
  ths !! k = Some th -> phs !! k = Some ph -> zs !! k = Some zz ->
  exists ret,
    eval_hom self ths phs zs MC = Ok ret /\
    ret !! k
    = Some (fold_left (fun s cw => s + hom_term self ths phs zs th ph zz cw)
              (cats_weights self) azero
            / catweight_sum (catweight_hom ths phs zs) (cats_weights self)).
Proof.
  intros Hlen Hth Hph Hz. unfold eval_hom.
  rewrite Hlen, Nat.eqb_refl, andb_false_r.
  assert (Hr : repeat (@azero A AR) (length zs) !! k = Some azero).
  { apply repeat_lookup. rewrite <- Hlen. eapply lookup_lt_Some, Hth. }
  destruct (eval_hom_loop_eval self ths phs zs (cats_weights self)
              (repeat azero (length zs)) azero k th ph zz azero
              Hth Hph Hz Hr) as [Hret Htot].
  destruct (eval_hom_loop _ _ _ _ _ _ _) as [ret tot]. cbn [fst snd] in *.
  eexists. split; [reflexivity |].
  now rewrite (map_lookup _ _ _ _ Hret), Htot.
Qed.
End EvalHomAt.

Section EvalHomReal.
Local Open Scope R_scope.

Lemma fold_zero_terms {T} (f : T -> R) (l : list T) :
  (forall x, f x = 0) -> fold_left (fun s x => s + f x) l 0 = 0.
Proof.
  intros H. induction l as [| x l IH]; simpl; [reflexivity |].
  rewrite H. replace (0 + 0) with 0 by lra. exact IH.
Qed.

(** X9: over the reals, in the multiplicative mode there is no
    homogeneous term: [eval_hom] returns 0 at every query point, the
    sum of the catalogue weights it divides by being non-zero. *)
Theorem eval_hom_multiplicative_zero (self : GalCompleted R)
  (ths phs zs : list R) (MC : bool) (k : nat) (th ph zz : R) :
  _multiplicative self = true ->
  length ths = length zs ->
  ths !! k = Some th -> phs !! k = Some ph -> zs !! k = Some zz ->
  catweight_sum (catweight_hom ths phs zs) (cats_weights self) <> 0 ->
  exists ret,
    eval_hom self ths phs zs MC = Ok ret /\ ret !! k = Some 0.
Proof.
  intros Hm Hlen Hth Hph Hz Htot.
  destruct (eval_hom_at self ths phs zs MC k th ph zz Hlen Hth Hph Hz)
    as [ret [Hret Hk]].
  exists ret. split; [exact Hret |]. rewrite Hk. f_equal.
  change (@aadd R real_arith) with Rplus.
  rewrite (fold_zero_terms (hom_term self ths phs zs th ph zz)).
  - change (@adiv R real_arith) with Rdiv. change (@azero R real_arith) with 0.
    unfold Rdiv. lra.
  - intros cw. unfold hom_term, confidence. rewrite Hm. simpl. lra.
Qed.

(** X10: over the reals, with a single catalogue [eval_hom] returns
    one minus the confidence of the completeness at the query point,
    whatever the weight of the catalogue, as long as [catweight] is not
    zero: that is [1 - completeness] in the additive mode. *)
Theorem eval_hom_single_catalogue (c : GalCat R) (wt : R) (add mult : bool)
  (ths phs zs : list R) (MC : bool) (k : nat) (th ph zz : R) :
  let self := mkGalCompleted [c] [wt] add mult in
  length ths = length zs ->
  ths !! k = Some th -> phs !! k = Some ph -> zs !! k = Some zz ->
  catweight_hom ths phs zs c wt <> 0 ->
  exists ret,
    eval_hom self ths phs zs MC = Ok ret /\
    ret !! k = Some (1 - confidence self (completeness c th ph zz)) /\
    (add = true -> mult = false ->
     ret !! k = Some (1 - (get (_completeness c) th ph zz + 1 / 1000000000))).
Proof.
  intros self Hlen Hth Hph Hz Hcw.
  destruct (eval_hom_at self ths phs zs MC k th ph zz Hlen Hth Hph Hz)
    as [ret [Hret Hk]].
  exists ret. split; [exact Hret |].
  assert (Hval : ret !! k
                 = Some (1 - confidence self (completeness c th ph zz))).
  { rewrite Hk. f_equal. unfold catweight_sum, cats_weights, hom_term.
    cbn [self _galcats _catweights combine fold_left fst snd].
    change (@aadd R real_arith) with Rplus.
    change (@adiv R real_arith) with Rdiv.
    change (@amul R real_arith) with Rmult.
    change (@asub R real_arith) with Rminus.
    change (@azero R real_arith) with 0. change (@aone R real_arith) with 1.
    field. lra. }
  split; [exact Hval |].
  intros -> ->. rewrite Hval. reflexivity.
Qed.
End EvalHomReal.

(** ** The range of the confidence and of the homogeneous term *)

Section Range.
Local Open Scope R_scope.

(** Outside the additive mode the confidence is a damping factor in
    [(0, 1]]. *)
Lemma confidence_range (self : GalCompleted R) (x : R) :
  _multiplicative self = true \/ _additive self = false ->
  0 < confidence self x <= 1.
Proof.
  intros Hmode. unfold confidence.
  destruct (_multiplicative self); [simpl; lra |].
  destruct Hmode as [Hm | ->]; [discriminate |].
  cbn zeta. rewrite clip_real. simpl.
  pose proof (clipped_pos x) as Hlo.
  pose proof (Rmin_r (Rmax x (2 / 1000)) 1) as Hhi.
  split; [apply exp_pos |].
  apply Rle_trans with (exp 0); [| rewrite exp_0; lra].
  apply exp_le.
  assert (1 <= / Rmin (Rmax x (2 / 1000)) 1).
  { rewrite <- Rinv_1 at 1. apply Rinv_le_contravar; lra. }
  unfold Rdiv. lra.
Qed.

Lemma asum_pos_from (l : list R) (a : R) :
  Forall (fun x => 0 < x) l -> 0 <= a -> a <= fold_left Rplus l a /\
  (l <> [] -> 0 < fold_left Rplus l a).
Proof.
  intros Hl. revert a. induction Hl as [| x l Hx _ IH]; intros a Ha; simpl.
  - split; [lra | congruence].
  - destruct (IH (a + x)) as [H1 _]; [lra |]. split; [lra |]. intros _. lra.
Qed.

Lemma mean_pos (l : list R) :
  Forall (fun x => 0 < x) l -> l <> [] -> 0 < mean l.
Proof.
  intros Hl Hne. unfold mean, asum. simpl.
  destruct (asum_pos_from l 0 Hl) as [_ Hs]; [lra |].
  apply Rdiv_lt_0_compat; [now apply Hs |].
  apply lt_0_INR. destruct l; [congruence | simpl; lia].
Qed.

Lemma completeness_paired_pos (c : GalCat R) (ths phs zs : list R) :
  (forall th ph zz, 0 <= get (_completeness c) th ph zz) ->
  Forall (fun x => 0 < x) (completeness_paired c ths phs zs).
Proof.
  intros Hpos. unfold completeness_paired. apply Forall_zip_with.
  intros [th ph] zz. cbn [fst snd]. rewrite completeness_real.
  specialize (Hpos th ph zz). lra.
Qed.

Lemma catweight_hom_pos (c : GalCat R) (wt : R) (ths phs zs : list R)
  (k : nat) (th ph zz : R) :
  0 < wt ->
  (forall th ph zz, 0 <= get (_completeness c) th ph zz) ->
  ths !! k = Some th -> phs !! k = Some ph -> zs !! k = Some zz ->
  0 < catweight_hom ths phs zs c wt.
Proof.
  intros Hwt Hpos Hth Hph Hz. unfold catweight_hom. simpl.
  apply Rmult_lt_0_compat; [assumption |].
  apply mean_pos; [now apply completeness_paired_pos |].
  intros E.
  pose proof (completeness_paired_lookup c ths phs zs k th ph zz Hth Hph Hz)
    as Hl.
  rewrite E in Hl. discriminate.
Qed.

(** A sum of shares of positive weights is a share of their sum. *)
Lemma weighted_shares {T} (share weight : T -> R) (l : list T) (s t : R) :
  Forall (fun x => 0 <= share x < 1 /\ 0 < weight x) l ->
  0 <= s <= t ->
  0 <= fold_left (fun a x => a + share x * weight x) l s
    <= fold_left (fun a x => a + weight x) l t /\
  t <= fold_left (fun a x => a + weight x) l t /\
  (s < t \/ l <> [] ->
   fold_left (fun a x => a + share x * weight x) l s
   < fold_left (fun a x => a + weight x) l t).
Proof.
  intros Hl. revert s t. induction Hl as [| x l [Hs Hw] _ IH];
    intros s t Hst; simpl.
  - repeat split; try lra. intros [H | H]; [lra | congruence].
  - destruct (IH (s + share x * weight x) (t + weight x)) as (H1 & H2 & H3).
    { split; nra. }
    repeat split; try lra. intros _. apply H3. left. nra.
Qed.

(** X11: outside the additive mode, with positive catalogue weights and
    completeness models that are not negative, [eval_hom] returns a
    fraction: a value in [[0, 1)] at every query point. *)
Theorem eval_hom_is_fraction (self : GalCompleted R)
  (ths phs zs : list R) (MC : bool) (k : nat) (th ph zz : R) :
  _multiplicative self = true \/ _additive self = false ->
  cats_weights self <> [] ->
  Forall (fun cw => 0 < snd cw /\
                    forall th ph zz, 0 <= get (_completeness (fst cw)) th ph zz)
    (cats_weights self) ->
  length ths = length zs ->
  ths !! k = Some th -> phs !! k = Some ph -> zs !! k = Some zz ->
  exists ret v,
    eval_hom self ths phs zs MC = Ok ret /\ ret !! k = Some v /\ 0 <= v < 1.
Proof.
  intros Hmode Hne Hcws Hlen Hth Hph Hz.
  destruct (eval_hom_at self ths phs zs MC k th ph zz Hlen Hth Hph Hz)
    as [ret [Hret Hk]].
  eexists ret, _. split; [exact Hret |]. split; [exact Hk |].
  unfold catweight_sum.
  change (@aadd R real_arith) with Rplus.
  change (@adiv R real_arith) with Rdiv.
  change (@azero R real_arith) with 0.
  destruct (weighted_shares
              (fun cw => 1 - confidence self (completeness (fst cw) th ph zz))
              (fun cw => catweight_hom ths phs zs (fst cw) (snd cw))
              (cats_weights self) 0 0) as ([H1 H2] & H3 & H4).
  - eapply Forall_impl; [exact Hcws |]. intros [c wt] [Hwt Hpos].
    cbn [fst snd] in *. split.
    + pose proof (confidence_range self (completeness c th ph zz) Hmode). lra.
    + now apply (catweight_hom_pos c wt ths phs zs k th ph zz).
  - lra.
  - specialize (H4 (or_intror Hne)).
    unfold hom_term.
    change (@amul R real_arith) with Rmult.
    change (@asub R real_arith) with Rminus.
    change (@aone R real_arith) with 1.
    set (S := fold_left (fun a x => a + (1 - _) * _) _ _) in *.
    set (T := fold_left (fun a x => a + catweight_hom _ _ _ _ _) _ _) in *.
    assert (0 < T) by lra. split.
    + apply Rle_mult_inv_pos; assumption.
    + apply Rmult_lt_reg_r with T; [assumption |].
      unfold Rdiv. rewrite Rmult_assoc, Rinv_l by lra. lra.
Qed.

End Range.

Section EvalHomWitnesses.
Local Open Scope R_scope.

Lemma example_catweight_hom (v wt : R) :
  catweight_hom [0] [0] [2] (example_cat [] v) wt = wt * (v + 1 / 1000000000).
Proof.
  unfold catweight_hom, mean, asum, completeness_paired, completeness.
  cbn. field.
Qed.

Lemma eval_hom_multiplicative_zero_witness :
  exists ret,
    eval_hom (mkGalCompleted [example_cat [] 1] [1] false true)
      [0] [0] [2] true = Ok ret /\ ret !! 0%nat = Some 0.
Proof.
  apply (eval_hom_multiplicative_zero
           (mkGalCompleted [example_cat [] 1] [1] false true)
           [0] [0] [2] true 0 0 0 2); try reflexivity.
  unfold catweight_sum, cats_weights. cbn [_galcats _catweights combine
    fold_left fst snd]. rewrite example_catweight_hom. cbn. lra.
Defined.

Lemma eval_hom_single_catalogue_witness :
  exists ret,
    eval_hom (mkGalCompleted [example_cat [] (1 / 2)] [3] true false)
      [0] [0] [2] true = Ok ret /\
    ret !! 0%nat
    = Some (1 - confidence
                  (mkGalCompleted [example_cat [] (1 / 2)] [3] true false)
                  (completeness (example_cat [] (1 / 2)) 0 0 2)) /\
    (true = true -> false = false ->
     ret !! 0%nat
     = Some (1 - (get (_completeness (example_cat [] (1 / 2))) 0 0 2
                  + 1 / 1000000000))).
Proof.
  apply (eval_hom_single_catalogue (example_cat [] (1 / 2)) 3 true false
           [0] [0] [2] true 0 0 0 2); try reflexivity.
  rewrite example_catweight_hom. lra.
Defined.

Lemma eval_hom_is_fraction_witness :
  exists ret v,
    eval_hom (mkGalCompleted [example_cat [] (1 / 2); example_cat [] 1]
                [3; 1] false false)
      [0] [0] [2] true = Ok ret /\ ret !! 0%nat = Some v /\ 0 <= v < 1.
Proof.
  apply (eval_hom_is_fraction
           (mkGalCompleted [example_cat [] (1 / 2); example_cat [] 1]
              [3; 1] false false)
           [0] [0] [2] true 0 0 0 2); try reflexivity.
  - right. reflexivity.
  - discriminate.
  - unfold cats_weights. cbn [_galcats _catweights combine].
    repeat constructor; cbn; try lra; intros; lra.
Defined.
End EvalHomWitnesses.

(** ** The catalogue weights *)

Section CatWeights.
Context {EX : External R}.
Local Open Scope R_scope.

Lemma combine_map_r {T U V} (f : U -> V) (l1 : list T) (l2 : list U) :
  combine l1 (map f l2) = map (fun p => (fst p, f (snd p))) (combine l1 l2).
Proof.
  revert l2. induction l1 as [| a l1 IH]; intros [| b l2]; simpl;
    try reflexivity.
  now rewrite IH.
Qed.

Lemma catweight_inhom_scale (lam : R) (c : GalCat R) (wt : R) :
  catweight_inhom c (lam * wt) = lam * catweight_inhom c wt.
Proof.
  unfold catweight_inhom. cbn zeta.
  change (@amul R real_arith) with Rmult. ring.
Qed.

Lemma catweight_sum_scale (lam : R) (cws : list (GalCat R * R)) (a : R) :
  fold_left (fun tot cw => tot + catweight_inhom (fst cw) (snd cw))
    (map (fun p => (fst p, lam * snd p)) cws) (lam * a)
  = lam * fold_left (fun tot cw => tot + catweight_inhom (fst cw) (snd cw))
            cws a.
Proof.
  revert a. induction cws as [| [c wt] cws IH]; intros a;
    cbn [map fold_left fst snd]; [reflexivity |].
  rewrite catweight_inhom_scale, <- Rmult_plus_distr_l. apply IH.
Qed.

Lemma inhom_weights_scale (self self' : GalCompleted R) (lam : R)
  (c : GalCat R) (wt : R) :
  _additive self' = _additive self ->
  _multiplicative self' = _multiplicative self ->
  inhom_weights self' c (lam * wt)
  = map (fun x => lam * x) (inhom_weights self c wt).
Proof.
  intros Ha Hm. unfold inhom_weights. cbn zeta.
  rewrite catweight_inhom_scale, !map_map.
  replace (confidence self') with (confidence self).
  - apply map_ext. intros x.
    change (@amul R real_arith) with Rmult.
    change (@adiv R real_arith) with Rdiv. unfold Rdiv. ring.
  - unfold confidence. now rewrite Ha, Hm.
Qed.

Lemma concat_map_map {T U V} (f : U -> V) (g : T -> list U) (l : list T) :
  concat (map (fun x => map f (g x)) l) = map f (concat (map g l)).
Proof.
  induction l as [| x l IH]; simpl; [reflexivity |].
  now rewrite map_app, IH.
Qed.

Lemma scale_cancels (lam x t : R) : lam <> 0 -> lam * x / (lam * t) = x / t.
Proof.
  intros H. unfold Rdiv. rewrite Rinv_mult.
  replace (lam * x * (/ lam * / t)) with (lam * / lam * (x * / t)) by ring.
  rewrite Rinv_r by assumption. ring.
Qed.

(** X12: the catalogue weights count relative to one another only:
    multiplying all of them by the same number, not zero, changes
    nothing in what [get_inhom] returns when the completeness is
    evaluated (more than one catalogue, or a mode that is not
    additive). *)
Theorem get_inhom_weight_scale (self : GalCompleted R) (lam : R) (nside : N) :
  let self' := mkGalCompleted (_galcats self)
                 (map (Rmult lam) (_catweights self))
                 (_additive self) (_multiplicative self) in
  lam <> 0 ->
  skip_completeness self = false ->
  cats_weights self <> [] ->
  snd (get_inhom self' nside) = snd (get_inhom self nside).
Proof.
  intros self' Hlam Hskip Hne.
  assert (Hcw : cats_weights self'
                = map (fun p => (fst p, lam * snd p)) (cats_weights self)).
  { unfold cats_weights, self'. cbn [_galcats _catweights].
    apply combine_map_r. }
  rewrite (get_inhom_eval self' nside), (get_inhom_eval self nside);
    try assumption.
  - rewrite Hcw, !map_map. cbn [fst snd].
    f_equal. f_equal.
    unfold catweight_sum.
    change (@azero R real_arith) with 0.
    change (@aadd R real_arith) with Rplus.
    pose proof (catweight_sum_scale lam (cats_weights self) 0) as Hsum.
    rewrite Rmult_0_r in Hsum. rewrite Hsum.
    rewrite (concat_map_ext_in _
               (fun cw => map (fun x => lam * x)
                            (inhom_weights self (fst cw) (snd cw))));
      [| intros cw _; now apply inhom_weights_scale].
    rewrite concat_map_map, map_map. apply map_ext. intros x.
    change (@adiv R real_arith) with Rdiv. now apply scale_cancels.
  - rewrite Hcw. destruct (cats_weights self); [contradiction | discriminate].
Qed.

(** X13: with a single catalogue in a mode that is not additive,
    [get_inhom] returns for every selected galaxy its weight over the
    completeness at its place, times the confidence there, over the
    density goal: the catalogue weight and the mean completeness cancel,
    their product not being zero. *)
Theorem get_inhom_single_catalogue (c : GalCat R) (wt : R) (mult : bool)
  (nside : N) :
  let self := mkGalCompleted [c] [wt] false mult in
  catweight_inhom c wt <> 0 ->
  snd (get_inhom self nside)
  = Ok (get_pix nside (get_data (cache_pix nside c)),
        map z (rows (get_data c)),
        map (fun g =>
               w g / completeness c (theta g) (phi g) (z g)
               * confidence self (completeness c (theta g) (phi g) (z g))
               / comovingDensityGoal (_completeness c))
          (rows (get_data c))).
Proof.
  intros self Hcw.
  rewrite (get_inhom_eval self nside); [| reflexivity | discriminate].
  unfold cats_weights, catweight_sum.
  cbn [self _galcats _catweights combine map concat fold_left fst snd].
  rewrite !app_nil_r. f_equal. f_equal.
  unfold inhom_weights. cbn zeta.
  rewrite zip_with_map_same, (map_map _ (confidence self)),
    zip_with_map_same, !map_map.
  apply map_ext. intros g.
  change (@aadd R real_arith) with Rplus.
  change (@amul R real_arith) with Rmult.
  change (@adiv R real_arith) with Rdiv.
  change (@azero R real_arith) with 0.
  rewrite Rplus_0_l. unfold Rdiv.
  set (cw := catweight_inhom c wt) in *.
  match goal with
  | |- ?a * cw * ?g * / cw = _ =>
      replace (a * cw * g * / cw) with (a * g * (cw * / cw)) by ring
  end.
  rewrite Rinv_r by assumption. ring.
Qed.
End CatWeights.

(** ** The total completeness and the selections of the aggregator *)

Section Aggregator.
Context {A : Type} {AR : Arith A} {EX : External A}.
Local Open Scope arith_scope.

Lemma combine_snoc {T U} (l1 : list T) (l2 : list U) (a : T) (b : U) :
  length l1 = length l2 ->
  combine (l1 ++ [a]) (l2 ++ [b]) = combine l1 l2 ++ [(a, b)].
Proof.
  revert l2. induction l1 as [| x l1 IH]; intros [| y l2] H; simpl in *;
    try discriminate; [reflexivity |].
  now rewrite IH by lia.
Qed.

(** X14: [add_cat(cat, weight)] on an aggregator with one weight per
    catalogue adds [weight*cat.completeness] to [total_completeness], as
    the last term of the sum: exactly so in floating point too. *)
Theorem total_completeness_add_cat (self : GalCompleted A) (c : GalCat A)
  (wt : A) (th ph zz : A) :
  length (_galcats self) = length (_catweights self) ->
  total_completeness (add_cat c wt self) th ph zz
  = total_completeness self th ph zz + wt * completeness c th ph zz.
Proof.
  intros Hlen. unfold total_completeness, cats_weights, add_cat.
  cbn [_galcats _catweights].
  rewrite combine_snoc by assumption.
  now rewrite fold_left_app.
Qed.

(** X15: [select_area] and then [set_z_range_for_selection] on the
    aggregator leave the weights and the mode alone, and
    [count_selection] then gives, for every catalogue in order, the
    number of rows of its full table whose pixel is in [pixels] and
    whose redshift is in [[zMin, zMax)]: selections made before do not
    count. *)
Theorem aggregator_selection_counts (pixels : list Z) (nside : N)
  (zMin zMax : A) (self : GalCompleted A) :
  let self' := GalCompleted_set_z_range_for_selection zMin zMax
                 (GalCompleted_select_area pixels nside self) in
  Forall (fun c => pix_ok (data c)) (_galcats self) ->
  GalCompleted_count_selection self'
  = map (fun c =>
           length (List.filter
                     (fun g => in_pixels pixels
                                 (ang2pix nside (theta g) (phi g))
                               && (aleb zMin (z g) && altb (z g) zMax))
                     (rows (data c))))
      (_galcats self) /\
  _catweights self' = _catweights self /\
  _additive self' = _additive self /\
  _multiplicative self' = _multiplicative self.
Proof.
  intros self' Hok. split; [| repeat split].
  unfold self', GalCompleted_count_selection,
    GalCompleted_set_z_range_for_selection, GalCompleted_select_area.
  cbn [set_galcats _galcats]. rewrite !map_map.
  apply map_ext_in. intros c Hc.
  rewrite List.Forall_forall in Hok.
  unfold count_selection.
  now rewrite z_range_rows, select_area_rows, filter_filter by auto.
Qed.
End Aggregator.

Section CatWeightsWitnesses.
Local Open Scope R_scope.

(** Two catalogues of weights 3 and 1, and then 6 and 2. *)
Lemma get_inhom_weight_scale_witness :
  let EX := example_external (A := R) in
  let self := mkGalCompleted
                [example_cat [example_gal 0 0] (1 / 2);
                 example_cat [example_gal 2 1] 1]
                [3; 1] false false in
  snd (get_inhom
         (mkGalCompleted (_galcats self) (map (Rmult 2) (_catweights self))
            (_additive self) (_multiplicative self)) 128)
  = snd (get_inhom self 128).
Proof.
  intros EX self.
  apply (get_inhom_weight_scale self 2 128);
    [lra | reflexivity | discriminate].
Defined.

Lemma get_inhom_single_catalogue_witness :
  let EX := example_external (A := R) in
  let c := example_cat [example_gal 0 0] (1 / 2) in
  let self := mkGalCompleted [c] [3] false false in
  snd (get_inhom self 128)
  = Ok (get_pix 128 (get_data (cache_pix 128 c)),
        map z (rows (get_data c)),
        map (fun g =>
               w g / completeness c (theta g) (phi g) (z g)
               * confidence self (completeness c (theta g) (phi g) (z g))
               / comovingDensityGoal (_completeness c))
          (rows (get_data c))).
Proof.
  intros EX c self.
  apply (get_inhom_single_catalogue c 3 false 128).
  unfold catweight_inhom, mean, asum, completeness_paired, completeness.
  cbn. lra.
Defined.
End CatWeightsWitnesses.

(** A second catalogue of weight 2 added to one of weight 1. *)
Lemma total_completeness_add_cat_witness :
  let AR := float_arith (fun x => x) in
  let EX := example_external in
  let c := example_cat [] 0.5%float in
  let self := add_cat c 1%float (GalCompleted_init "mix") in
  total_completeness (add_cat c 2%float self) 0%float 0%float 1%float
  = (total_completeness self 0%float 0%float 1%float
     + 2 * completeness c 0%float 0%float 1%float)%float.
Proof.
  intros AR EX c self.
  apply (total_completeness_add_cat (AR := AR) self c 2%float).
  reflexivity.
Defined.

(** Two catalogues, one with a galaxy in pixel 0 and one in pixel 1, the
    other with a galaxy in pixel 0 out of the redshift range. *)
Lemma aggregator_selection_counts_witness :
  let AR := float_arith (fun x => x) in
  let EX := example_external in
  let self := mkGalCompleted
                [example_cat [example_gal 0 0; example_gal 2 1] 1%float;
                 example_cat [example_gal 0 5] 1%float]
                [1%float; 1%float] false false in
  GalCompleted_count_selection
    (GalCompleted_set_z_range_for_selection 1%float 4%float
       (GalCompleted_select_area [0%Z] 128 self))
  = [1%nat; 0%nat].
Proof.
  intros AR EX self.
  destruct (aggregator_selection_counts (AR := AR) [0%Z] 128
              1%float 4%float self) as [H _].
  - repeat constructor; now apply pix_ok_no_column.
  - rewrite H. vm_compute. reflexivity.
Defined.

(** ** parmap and the batches *)

Section ParmapContract.
Context {X B C : Type}.

(** X16: whatever the order in which the workers finish, [parmap(f, X)]
    is [[f(x) for x in X]]: one result for every input, in the order of
    the inputs; so two runs agree, and a [parmap] of a [parmap] is the
    [parmap] of the composition. *)
Theorem parmap_is_map
  (completion completion' : list (nat * B) -> list (nat * B))
  (completion'' : list (nat * C) -> list (nat * C))
  (f : X -> B) (g : B -> C) (xs : list X) :
  (forall l, Permutation (completion l) l) ->
  (forall l, Permutation (completion' l) l) ->
  (forall l, Permutation (completion'' l) l) ->
  parmap completion f xs = map f xs /\
  length (parmap completion f xs) = length xs /\
  parmap completion f xs = parmap completion' f xs /\
  parmap completion'' g (parmap completion f xs)
  = parmap completion'' (fun x => g (f x)) xs.
Proof.
  intros H H' H''.
  rewrite !parmap_map by assumption.
  rewrite length_map, map_map. repeat split.
Qed.
End ParmapContract.

Section BatchSizes.
Context {A : Type} {AR : Arith A} {EX : External A}.

Lemma batch_rows_length (df : Table A) (b nBatches : nat) :
  (b < nBatches)%nat ->
  length (batch_rows df b nBatches)
  = if (b =? nBatches - 1)%nat
    then (length (rows df) - length (rows df) / nBatches * b)%nat
    else (length (rows df) / nBatches)%nat.
Proof.
  intros Hb.
  assert (Hdiv : (length (rows df) / nBatches * nBatches
                  <= length (rows df))%nat).
  { rewrite Nat.mul_comm. apply Nat.Div0.mul_div_le. }
  destruct (Nat.eqb_spec b (nBatches - 1)) as [-> | Hne].
  - rewrite batch_rows_last by lia. apply length_skipn.
  - rewrite batch_rows_inner by lia.
    rewrite length_firstn, length_skipn.
    assert (length (rows df) / nBatches * (b + 1)
            <= length (rows df) / nBatches * nBatches)%nat
      by (apply Nat.mul_le_mono_l; lia).
    lia.
Qed.

(** X17: the batches of [include_vol_prior] are [max(int(N/10000), 1)]
    in number.  A table of less than [batchSize] rows goes in one batch;
    in a larger one every batch but the last has [int(N/nBatches)] rows,
    at least [batchSize] and less than twice as many, and the last has
    at least as many: no batch is empty unless the table is. *)
Theorem include_vol_prior_batch_sizes (df : Table A) (b : nat) :
  let N := length (rows df) in
  let nBatches := Nat.max (N / batchSize) 1 in
  (b < nBatches)%nat ->
  (Nat.min N batchSize <= length (batch_rows df b nBatches))%nat /\
  (N / nBatches <= length (batch_rows df b nBatches))%nat /\
  ((b < nBatches - 1)%nat ->
   length (batch_rows df b nBatches) = (N / nBatches)%nat /\
   (N / nBatches < 2 * batchSize)%nat) /\
  ((N < batchSize)%nat ->
   nBatches = 1%nat /\ batch_rows df b nBatches = rows df).
Proof.
  intros N nBatches Hb.
  pose proof (batch_rows_length df b nBatches Hb) as Hlen.
  fold N in Hlen.
  assert (Hbs : (1 <= batchSize)%nat)
    by (apply Nat.leb_le; vm_compute; reflexivity).
  revert nBatches Hb Hlen. generalize dependent batchSize.
  intros bs Hbs nBatches Hb Hlen.
  assert (Hq : (N / bs * bs <= N)%nat).
  { rewrite Nat.mul_comm. apply Nat.Div0.mul_div_le. }
  assert (Hq' : (N < (N / bs + 1) * bs)%nat).
  { pose proof (Nat.div_mod_eq N bs).
    pose proof (Nat.mod_upper_bound N bs). nia. }
  assert (Hn : (N / nBatches * nBatches <= N)%nat).
  { rewrite Nat.mul_comm. apply Nat.Div0.mul_div_le. }
  assert (Hpos : (1 <= nBatches)%nat) by (unfold nBatches; lia).
  assert (Hlow : (bs <= N -> bs <= N / nBatches)%nat).
  { intros HN. apply Nat.div_le_lower_bound; [lia |].
    assert (1 <= N / bs)%nat
      by (apply Nat.div_le_lower_bound; lia).
    replace nBatches with (N / bs)%nat by (unfold nBatches; lia).
    lia. }
  assert (Hup : (N / nBatches < 2 * bs)%nat).
  { apply Nat.Div0.div_lt_upper_bound.
    destruct (Nat.le_gt_cases 1 (N / bs)) as [H1 | H1].
    - replace nBatches with (N / bs)%nat by (unfold nBatches; lia). nia.
    - replace nBatches with 1%nat by (unfold nBatches; lia). nia. }
  assert (Hge : (N / nBatches <= length (batch_rows df b nBatches))%nat).
  { rewrite Hlen. destruct (Nat.eqb_spec b (nBatches - 1)) as [-> | Hne];
      [| lia].
    assert (N / nBatches * (nBatches - 1) + N / nBatches
            = N / nBatches * nBatches)%nat by nia.
    lia. }
  assert (Hone : (N < bs -> nBatches = 1)%nat).
  { intros HN. unfold nBatches. now rewrite Nat.div_small by lia. }
  split; [| split; [exact Hge | split]].
  - destruct (Nat.le_gt_cases bs N) as [HN | HN].
    + specialize (Hlow HN). lia.
    + specialize (Hone HN). rewrite Hone in *.
      rewrite Nat.div_1_r in Hge. lia.
  - intros Hb'. rewrite Hlen.
    destruct (Nat.eqb_spec b (nBatches - 1)); [lia |]. now split.
  - intros HN. specialize (Hone HN).
    split; [exact Hone |]. rewrite Hone in *.
    assert (b = 0)%nat as -> by lia.
    pose proof (batches_cover df 1 (le_n 1)) as Hc.
    cbn [seq map concat] in Hc. now rewrite app_nil_r in Hc.
Qed.
End BatchSizes.

(** The identity on three inputs, the workers finishing in the reverse
    order. *)
Lemma parmap_is_map_witness :
  parmap (@rev _) S [1; 2; 3]%nat = map S [1; 2; 3]%nat /\
  length (parmap (@rev _) S [1; 2; 3]%nat) = length [1; 2; 3]%nat /\
  parmap (@rev _) S [1; 2; 3]%nat = parmap (fun l => l) S [1; 2; 3]%nat /\
  parmap (@rev _) S (parmap (@rev _) S [1; 2; 3]%nat)
  = parmap (@rev _) (fun x => S (S x)) [1; 2; 3]%nat.
Proof.
  apply (parmap_is_map (@rev _) (fun l => l) (@rev _) S S [1; 2; 3]%nat).
  - intros l. apply Permutation_sym, Permutation_rev.
  - intros l. apply Permutation_refl.
  - intros l. apply Permutation_sym, Permutation_rev.
Defined.

(** The second of the two batches of a table of 25000 rows. *)
Lemma include_vol_prior_batch_sizes_witness :
  let AR := float_arith (fun x => x) in
  let EX := example_external in
  let df := example_table (repeat (example_gal 0 0) 25000) in
  (Nat.min (length (rows df)) batchSize
   <= length (batch_rows df 1
                (Nat.max (length (rows df) / batchSize) 1)))%nat.
Proof.
  intros AR EX df.
  destruct (include_vol_prior_batch_sizes df 1) as [H _].
  - apply Nat.ltb_lt. vm_compute. reflexivity.
  - exact H.
Defined.

(** ** The correction for group velocities *)

Section GroupCorrectionFacts.
Context {A : Type} {AR : Arith A} {CO : Constants A}.
Local Open Scope arith_scope.

Lemma z_group_isin (df_groups : list (GroupRow A)) (pgc : Z) :
  isin pgc (map g_PGC df_groups) = false <-> z_group df_groups pgc = None.
Proof.
  unfold z_group, isin.
  assert (H : existsb (Z.eqb pgc) (map g_PGC df_groups) = false <->
              List.filter (fun r => Z.eqb (g_PGC r) pgc) df_groups = []).
  { induction df_groups as [| g gs IH]; simpl; [tauto |].
    rewrite (Z.eqb_sym pgc). destruct (Z.eqb (g_PGC g) pgc); simpl.
    - split; discriminate.
    - exact IH. }
  rewrite H.
  destruct (List.filter _ df_groups); split; congruence.
Qed.

Lemma set_z_cosmo_same (r : ZRow A) : set_z_cosmo (z_cosmo r) r = r.
Proof. now destruct r. Qed.

(** The loop and the assignment under the mask together change the
    redshift of the rows that are in a group, each on its own. *)
Lemma loop_and_assign (df_groups : list (GroupRow A)) (df : list (ZRow A)) :
  let mask := map (fun r => isin (PGC r) (map g_PGC df_groups)) df in
  exists arr,
    z_corr_loop df_groups (map PGC (select_mask mask df)) = Some arr /\
    assign_masked mask arr df
    = Some (map (fun r => set_z_cosmo (corrected_z df_groups r) r) df).
Proof.
  induction df as [| r df [arr [Hloop Hassign]]]; cbn zeta.
  - exists []. split; reflexivity.
  - cbn [map select_mask].
    destruct (isin (PGC r) (map g_PGC df_groups)) eqn:Hin.
    + destruct (z_group df_groups (PGC r)) as [zg |] eqn:Hzg.
      * exists (zg :: arr). cbn [map z_corr_loop assign_masked].
        rewrite Hzg, Hloop, Hassign.
        assert (Hz : corrected_z df_groups r = zg)
          by (unfold corrected_z; now rewrite Hzg).
        rewrite Hz. split; reflexivity.
      * apply z_group_isin in Hzg. congruence.
    + exists arr. split; [exact Hloop |].
      cbn [assign_masked]. rewrite Hassign.
      assert (Hz : corrected_z df_groups r = z_cosmo r).
      { unfold corrected_z. apply z_group_isin in Hin. now rewrite Hin. }
      now rewrite Hz, set_z_cosmo_same.
Qed.

Lemma group_correction_rows (df : list (ZRow A))
  (df_groups : list (GroupRow A)) :
  group_correction df df_groups = Some (map (corrected_row df_groups) df).
Proof.
  unfold group_correction. cbn zeta.
  set (df1 := map _ df).
  destruct (loop_and_assign df_groups df1) as [arr [Hloop Hassign]].
  cbn zeta in Hloop, Hassign. rewrite Hloop, Hassign.
  unfold df1. rewrite !map_map. reflexivity.
Qed.

(** X18: [group_correction] never raises, and it works row by row: the
    identifier stays, [which_z+'_or'] gets the redshift the row had, a
    row whose [PGC] is not in [df_groups] keeps its redshift, and a row
    whose [PGC] is there gets the mean velocity over [clight] of the
    group of the first row of [df_groups] with that [PGC]. *)
Theorem group_correction_row_by_row (df : list (ZRow A))
  (df_groups : list (GroupRow A)) :
  group_correction df df_groups = Some (map (corrected_row df_groups) df) /\
  (forall r,
     PGC (corrected_row df_groups r) = PGC r /\
     z_cosmo_or (corrected_row df_groups r) = z_cosmo r /\
     (isin (PGC r) (map g_PGC df_groups) = false ->
      z_cosmo (corrected_row df_groups r) = z_cosmo r) /\
     (isin (PGC r) (map g_PGC df_groups) = true ->
      exists g,
        In g df_groups /\ g_PGC g = PGC r /\
        z_cosmo (corrected_row df_groups r)
        = series_mean
            (map HRV (List.filter (fun r' => Z.eqb (PGC1 r') (PGC1 g))
                        df_groups))
          / clight)).
Proof.
  split; [apply group_correction_rows |].
  intros r. split; [reflexivity |]. split; [reflexivity |]. split.
  - intros Hin. apply z_group_isin in Hin.
    cbn [corrected_row z_cosmo]. unfold corrected_z. now rewrite Hin.
  - intros Hin. cbn [corrected_row z_cosmo]. unfold corrected_z, z_group.
    destruct (List.filter (fun r0 => Z.eqb (g_PGC r0) (PGC r)) df_groups)
      as [| g gs] eqn:Hf.
    + assert (Hnone : z_group df_groups (PGC r) = None)
        by (unfold z_group; now rewrite Hf).
      apply z_group_isin in Hnone. congruence.
    + exists g.
      assert (Hg : In g (List.filter (fun r0 => Z.eqb (g_PGC r0) (PGC r))
                           df_groups)) by (rewrite Hf; now left).
      apply filter_In in Hg. destruct Hg as [Hg1 Hg2].
      apply Z.eqb_eq in Hg2. repeat split; assumption.
Qed.

Lemma z_group_of_member (df_groups : list (GroupRow A)) (g : GroupRow A) :
  List.NoDup (map g_PGC df_groups) -> In g df_groups ->
  z_group df_groups (g_PGC g)
  = Some (series_mean
            (map HRV (List.filter (fun r' => Z.eqb (PGC1 r') (PGC1 g))
                        df_groups))
          / clight).
Proof.
  intros Hnd Hin. unfold z_group.
  assert (Hf : List.filter (fun r => Z.eqb (g_PGC r) (g_PGC g)) df_groups
               = [g]).
  { clear - Hnd Hin. induction df_groups as [| x gs IH]; [contradiction |].
    cbn [map] in Hnd. inversion Hnd as [| ? ? Hnotin Hnd']; subst.
    cbn [List.filter]. destruct Hin as [-> | Hin].
    - rewrite Z.eqb_refl. f_equal.
      assert (Hall : forall y, In y gs ->
                Z.eqb (g_PGC y) (g_PGC g) = false).
      { intros y Hy. apply Z.eqb_neq. intros E. apply Hnotin.
        rewrite <- E. now apply in_map. }
      clear - Hall. induction gs as [| y gs IH]; [reflexivity |].
      cbn [List.filter]. rewrite Hall by now left.
      apply IH. intros z Hz. apply Hall. now right.
    - destruct (Z.eqb_spec (g_PGC x) (g_PGC g)) as [E | _].
      + exfalso. apply Hnotin. rewrite E. now apply in_map.
      + now apply IH. }
  now rewrite Hf.
Qed.

(** X19: with every galaxy listed once in [df_groups], two rows of [df]
    whose galaxies are listed in the same group [PGC1] leave the call
    with the same redshift, the mean velocity of that group over
    [clight]. *)
Theorem group_correction_same_group (df : list (ZRow A))
  (df_groups : list (GroupRow A)) (g1 g2 : GroupRow A) (k1 k2 : nat)
  (r1 r2 : ZRow A) :
  List.NoDup (map g_PGC df_groups) ->
  In g1 df_groups -> In g2 df_groups -> PGC1 g1 = PGC1 g2 ->
  df !! k1 = Some r1 -> PGC r1 = g_PGC g1 ->
  df !! k2 = Some r2 -> PGC r2 = g_PGC g2 ->
  exists out r1' r2',
    group_correction df df_groups = Some out /\
    out !! k1 = Some r1' /\ out !! k2 = Some r2' /\
    z_cosmo r1' = z_cosmo r2' /\
    z_cosmo r1'
    = series_mean
        (map HRV (List.filter (fun r' => Z.eqb (PGC1 r') (PGC1 g1))
                    df_groups))
      / clight.
Proof.
  intros Hnd Hg1 Hg2 Hsame Hk1 Hp1 Hk2 Hp2.
  exists (map (corrected_row df_groups) df),
    (corrected_row df_groups r1), (corrected_row df_groups r2).
  split; [apply group_correction_rows |].
  split; [now apply map_lookup |]. split; [now apply map_lookup |].
  cbn [corrected_row z_cosmo]. unfold corrected_z.
  rewrite Hp1, Hp2, !z_group_of_member by assumption.
  rewrite Hsame. split; reflexivity.
Qed.
End GroupCorrectionFacts.

Section GroupCorrectionReal.
Local Open Scope R_scope.

Lemma aneb_real (x y : R) : aneb x y = true <-> x <> y.
Proof.
  unfold aneb. cbn [aleb real_arith].
  destruct (Rleb x y) eqn:E1, (Rleb y x) eqn:E2; cbn;
    rewrite ?Rleb_true, ?Rleb_false in *; split; intros H;
    try discriminate; try reflexivity; try lra.
Qed.

Lemma aneb_real_false (x y : R) : aneb x y = false <-> x = y.
Proof.
  destruct (aneb x y) eqn:E.
  - apply aneb_real in E. split; [discriminate | contradiction].
  - split; [| reflexivity]. intros _.
    destruct (Req_dec x y) as [H | H]; [exact H |].
    apply aneb_real in H. congruence.
Qed.

(** X20: over the reals the flag ['group_correction'] is 1 on the rows
    whose redshift the call changed and 0 on the others, and the rows it
    flags are rows of galaxies listed in [df_groups]; a galaxy of a
    group whose mean redshift is the one it had is not flagged. *)
Theorem group_correction_flags (df : list (ZRow R))
  (df_groups : list (GroupRow R)) :
  exists out,
    group_correction df df_groups = Some out /\
    Forall (fun r =>
              (group_correction_col r = 1%Z <-> z_cosmo r <> z_cosmo_or r) /\
              (group_correction_col r = 0%Z <-> z_cosmo r = z_cosmo_or r) /\
              (group_correction_col r = 1%Z ->
               isin (PGC r) (map g_PGC df_groups) = true)) out.
Proof.
  exists (map (corrected_row df_groups) df).
  split; [apply group_correction_rows |].
  apply Forall_map_all. intros r.
  cbn [corrected_row group_correction_col z_cosmo z_cosmo_or PGC].
  destruct (aneb (z_cosmo r) (corrected_z df_groups r)) eqn:E.
  - apply aneb_real in E. repeat split; try discriminate; auto.
    + intros H. congruence.
    + intros _.
      destruct (isin (PGC r) (map g_PGC df_groups)) eqn:Hin;
        [reflexivity |].
      apply z_group_isin in Hin. unfold corrected_z in E.
      rewrite Hin in E. contradiction.
  - apply aneb_real_false in E. repeat split; try discriminate; auto.
    intros H. congruence.
Qed.

(** X21: the call is not to be run twice: over the reals a second run
    with the same groups changes no redshift, but it overwrites
    [which_z+'_or'] with the corrected redshifts and sets every flag to
    0, so that the record of the first run is lost. *)
Theorem group_correction_twice (df : list (ZRow R))
  (df_groups : list (GroupRow R)) :
  exists out,
    group_correction df df_groups = Some out /\
    group_correction out df_groups
    = Some (map (fun r => {| PGC := PGC r; z_cosmo := z_cosmo r;
                             z_cosmo_or := z_cosmo r;
                             group_correction_col := 0 |}) out).
Proof.
  exists (map (corrected_row df_groups) df).
  split; [apply group_correction_rows |].
  rewrite group_correction_rows, !map_map. f_equal.
  apply map_ext. intros r.
  assert (Hz : corrected_z df_groups (corrected_row df_groups r)
               = corrected_z df_groups r).
  { unfold corrected_z at 1. cbn [corrected_row PGC z_cosmo].
    unfold corrected_z. now destruct (z_group df_groups (PGC r)). }
  unfold corrected_row at 1. rewrite Hz.
  cbn [corrected_row PGC z_cosmo].
  replace (aneb (corrected_z df_groups r) (corrected_z df_groups r))
    with false by (symmetry; now apply aneb_real_false).
  reflexivity.
Qed.
End GroupCorrectionReal.

Section GroupCorrectionBinary64.
Variable fexp : float -> float.

Lemma leb_nan_l (x y : float) : is_nan x = true -> (x <=? y)%float = false.
Proof.
  intros H. apply is_nan_spec in H.
  rewrite FloatAxioms.leb_spec, H. reflexivity.
Qed.

(** X22: in binary64 a row whose redshift is NaN leaves the call with
    the flag ['group_correction'] at 1 though its galaxy is in no group
    and its redshift is left as it was: NaN is not equal to itself. *)
Theorem group_correction_flags_nan (df : list (ZRow float))
  (df_groups : list (GroupRow float)) (k : nat) (r : ZRow float) :
  df !! k = Some r ->
  is_nan (z_cosmo r) = true ->
  isin (PGC r) (map g_PGC df_groups) = false ->
  exists out r',
    group_correction (AR := float_arith fexp) (CO := float_constants)
      df df_groups = Some out /\
    out !! k = Some r' /\
    PGC r' = PGC r /\
    is_nan (z_cosmo r') = true /\
    group_correction_col r' = 1%Z.
Proof.
  intros Hk Hnan Hin.
  exists (map (corrected_row (AR := float_arith fexp) (CO := float_constants)
                 df_groups) df),
    (corrected_row (AR := float_arith fexp) (CO := float_constants)
       df_groups r).
  split; [apply group_correction_rows |].
  split; [now apply map_lookup |].
  assert (Hz : corrected_z (AR := float_arith fexp) (CO := float_constants)
                 df_groups r = z_cosmo r).
  { unfold corrected_z.
    apply (z_group_isin (AR := float_arith fexp) (CO := float_constants))
      in Hin.
    now rewrite Hin. }
  cbn [corrected_row PGC z_cosmo group_correction_col]. rewrite Hz.
  split; [reflexivity |]. split; [assumption |].
  unfold aneb. cbn [aleb float_arith].
  now rewrite leb_nan_l.
Qed.
End GroupCorrectionBinary64.

(** Galaxies 1 and 2 in the group 7 with velocities 100 and 300, and a
    frame with the two and a galaxy that is in no group. *)
Lemma group_correction_same_group_witness :
  let df := [mkZRow 1 0 0 0; mkZRow 5 0 0 0; mkZRow 2 0 0 0]%R in
  let df_groups := [mkGroupRow 1 7 100; mkGroupRow 2 7 300]%R in
  exists out r1' r2',
    group_correction df df_groups = Some out /\
    out !! 0%nat = Some r1' /\ out !! 2%nat = Some r2' /\
    z_cosmo r1' = z_cosmo r2' /\
    z_cosmo r1'
    = (series_mean
         (map HRV (List.filter (fun r' => Z.eqb (PGC1 r') 7) df_groups))
       / clight)%R.
Proof.
  intros df df_groups.
  refine (group_correction_same_group df df_groups
            (mkGroupRow 1 7 100%R) (mkGroupRow 2 7 300%R) 0 2
            (mkZRow 1 0 0 0)%R (mkZRow 2 0 0 0)%R _ _ _ _ _ _ _ _);
    try reflexivity.
  - cbn. repeat constructor; cbn; intuition discriminate.
  - now left.
  - right. now left.
Defined.

(** A galaxy with no redshift and no group. *)
Lemma group_correction_flags_nan_witness :
  exists out r',
    group_correction (AR := float_arith (fun x => x)) (CO := float_constants)
      [mkZRow 5%Z nan 0%float 0%Z] [mkGroupRow 1%Z 7%Z 100%float] = Some out /\
    out !! 0%nat = Some r' /\
    PGC r' = 5%Z /\
    is_nan (z_cosmo r') = true /\
    group_correction_col r' = 1%Z.
Proof.
  apply (group_correction_flags_nan (fun x => x)
           [mkZRow 5%Z nan 0%float 0%Z] [mkGroupRow 1%Z 7%Z 100%float]
           0 (mkZRow 5%Z nan 0%float 0%Z)); reflexivity.
Defined.

(** ** The CMB frame *)

Section CMBFacts.
Local Open Scope R_scope.

(** The cosine of the angle between two directions on the sphere. *)
Lemma sphere_cosine_bound (s1 c1 s2 c2 t : R) :
  s1 * s1 + c1 * c1 = 1 -> s2 * s2 + c2 * c2 = 1 -> -1 <= t <= 1 ->
  -1 <= s1 * s2 * t + c1 * c2 <= 1.
Proof.
  intros H1 H2 Ht.
  assert (Hp : -1 <= c1 * c2 + s1 * s2 <= 1).
  { pose proof (Rle_0_sqr (s1 * c2 - c1 * s2)) as Hsq. unfold Rsqr in Hsq.
    assert ((c1 * c2 + s1 * s2) * (c1 * c2 + s1 * s2)
            + (s1 * c2 - c1 * s2) * (s1 * c2 - c1 * s2) = 1).
    { transitivity ((s1 * s1 + c1 * c1) * (s2 * s2 + c2 * c2)); [ring |].
      rewrite H1, H2. ring. }
    nra. }
  assert (Hm : -1 <= c1 * c2 - s1 * s2 <= 1).
  { pose proof (Rle_0_sqr (s1 * c2 + c1 * s2)) as Hsq. unfold Rsqr in Hsq.
    assert ((c1 * c2 - s1 * s2) * (c1 * c2 - s1 * s2)
            + (s1 * c2 + c1 * s2) * (s1 * c2 + c1 * s2) = 1).
    { transitivity ((s1 * s1 + c1 * c1) * (s2 * s2 + c2 * c2)); [ring |].
      rewrite H1, H2. ring. }
    nra. }
  replace (s1 * s2 * t + c1 * c2)
    with ((c1 * c2 + s1 * s2) * ((1 + t) / 2)
          + (c1 * c2 - s1 * s2) * ((1 - t) / 2)) by field.
  assert (0 <= (1 + t) / 2) by lra. assert (0 <= (1 - t) / 2) by lra.
  assert ((1 + t) / 2 + (1 - t) / 2 = 1) by field.
  nra.
Qed.

Lemma sin_cos_one (x : R) : sin x * sin x + cos x * cos x = 1.
Proof. pose proof (sin2_cos2 x) as H. unfold Rsqr in H. exact H. Qed.

Lemma clight_real_value : clight (A := R) = 299792458 / 1000.
Proof. cbn. field. Qed.

Lemma clight_real_pos : 0 < clight (A := R).
Proof. rewrite clight_real_value. lra. Qed.

(** X23: over the reals the redshift in the CMB frame that
    [CMB_correction] writes differs from the heliocentric one by
    [v_CMB/clight] at most, less than 0.00124, in every row and whatever
    the direction of the galaxy; and the column has one entry for every
    row. *)
Theorem CMB_correction_bound (df : Table R) :
  length (CMB_correction df) = length (rows df) /\
  v_CMB / clight < 124 / 100000 /\
  forall (k : nat) (g : Gal R) (z_CMB : R),
    rows df !! k = Some g -> CMB_correction df !! k = Some z_CMB ->
    Rabs (z_CMB - z g) <= v_CMB / clight.
Proof.
  pose proof clight_real_pos as Hc.
  assert (Hv : 0 < v_CMB (A := R)) by (cbn [v_CMB real_constants]; lra).
  assert (Hsmall : v_CMB (A := R) / clight < 124 / 100000).
  { rewrite clight_real_value. cbn [v_CMB real_constants].
    apply Rmult_lt_reg_r with (299792458 / 1000); [lra |].
    unfold Rdiv at 1.
    rewrite Rmult_assoc, Rinv_l by (apply Rgt_not_eq; lra). lra. }
  unfold CMB_correction.
  set (c := clight (A := R)) in *. set (v := v_CMB (A := R)) in *.
  clearbody c v.
  destruct (gal_to_eq (np_radians l_CMB) (np_radians b_CMB))
    as [phi_CMB dec_CMB].
  split; [apply length_map |].
  split; [exact Hsmall |].
  intros k g z_CMB Hg Hz.
  rewrite (map_lookup _ _ _ _ Hg) in Hz. injection Hz as <-.
  change (@aadd R real_arith) with Rplus.
  change (@amul R real_arith) with Rmult.
  change (@adiv R real_arith) with Rdiv.
  change (@asub R real_arith) with Rminus.
  cbn [np_sin np_cos np_pi real_trig].
  set (d := sin (theta g) * sin _ * cos _ + cos (theta g) * cos _).
  assert (Hd : -1 <= d <= 1).
  { apply sphere_cosine_bound; try apply sin_cos_one. apply COS_bound. }
  clearbody d.
  replace ((c * z g + v * d) / c - z g) with (v / c * d)
    by (field; apply Rgt_not_eq; exact Hc).
  assert (HV : 0 < v / c) by now apply Rdiv_lt_0_compat.
  set (V := v / c) in *. clearbody V.
  apply Rabs_le. split; nra.
Qed.

End CMBFacts.

(** ** The Schechter parameters *)

Section SchechterFacts.
Local Open Scope R_scope.
Variable gamma : R -> R.
Variable gammaincc : R -> R -> R.

(** X25: for a Hubble parameter that is not zero, the norm
    [get_SchNorm] of the parameters rescaled by [get_SchParams] is
    [h0/0.7] times the norm of the parameters for [h0 = 0.7], which
    [get_SchParams] gives back at [h0 = 0.7]. *)
Theorem get_SchNorm_rescaled (Lstar phiStar h0 alpha Lcut : R) :
  h0 <> 0 ->
  get_SchNorm gamma gammaincc
    (snd (get_SchParams Lstar phiStar h0))
    (fst (get_SchParams Lstar phiStar h0)) alpha Lcut
  = h0 / (7 / 10) * get_SchNorm gamma gammaincc phiStar Lstar alpha Lcut /\
  get_SchParams Lstar phiStar (7 / 10) = (Lstar, phiStar).
Proof.
  intros Hh. unfold get_SchNorm, get_SchParams. cbn [fst snd]. split.
  - assert (Hx : h0 / (7 / 10) <> 0).
    { unfold Rdiv. apply Rmult_integral_contrapositive_currified; [exact Hh |].
      apply Rinv_neq_0_compat. lra. }
    assert (Hp : powerRZ (h0 / (7 / 10)) 3 * powerRZ (h0 / (7 / 10)) (-2)
                 = h0 / (7 / 10)).
    { rewrite <- powerRZ_add by exact Hx.
      change (3 + -2)%Z with 1%Z. apply powerRZ_1. }
    set (x := h0 / (7 / 10)) in *.
    replace (phiStar * powerRZ x 3 * (Lstar * powerRZ x (-2)))
      with (powerRZ x 3 * powerRZ x (-2) * (phiStar * Lstar)) by ring.
    rewrite Hp. ring.
  - replace (7 / 10 / (7 / 10)) with 1 by field.
    rewrite !powerRZ_R1. f_equal; ring.
Qed.
End SchechterFacts.

(** The norm at [h0 = 1], with stand-ins for the two special
    functions. *)
Lemma get_SchNorm_rescaled_witness :
  (get_SchNorm (fun x => x) (fun a x => a + x)
     (snd (get_SchParams 2 3 1)) (fst (get_SchParams 2 3 1)) 0 1
   = 1 / (7 / 10) * get_SchNorm (fun x => x) (fun a x => a + x) 3 2 0 1 /\
   get_SchParams 2 3 (7 / 10) = (2, 3))%R.
Proof.
  apply (get_SchNorm_rescaled (fun x => x) (fun a x => a + x)%R 2 3 1 0 1)%R.
  exact R1_neq_R0.
Defined.

(** ** The shape of what eval_hom returns *)

Section EvalHomShape.
Context {A : Type} {AR : Arith A}.
Local Open Scope arith_scope.

Lemma completeness_paired_length (c : GalCat A) (ths phs zs : list A) :
  length phs = length ths -> length zs = length ths ->
  length (completeness_paired c ths phs zs) = length ths.
Proof.
  intros Hp Hz. unfold completeness_paired.
  rewrite length_zip_with_same; rewrite length_combine; lia.
Qed.

Lemma eval_hom_loop_length (self : GalCompleted A) (ths phs zs : list A)
  (cws : list (GalCat A * A)) (ret : list A) (tot : A) :
  length phs = length ths -> length zs = length ths ->
  length ret = length ths ->
  length (fst (eval_hom_loop self ths phs zs cws ret tot)) = length ths.
Proof.
  intros Hp Hz. revert ret tot.
  induction cws as [| [c wt] cws IH]; intros ret tot Hret; [exact Hret |].
  cbn [eval_hom_loop]. apply IH.
  rewrite length_zip_with_same; [exact Hret |].
  rewrite !length_map, completeness_paired_length by assumption.
  exact Hret.
Qed.

(** X26: with [MC] set, [eval_hom] on arrays [theta] and [z] of
    different lengths raises [AssertionError] whatever the catalogues
    are; on three arrays of one length it returns, with or without
    [MC], one value for every query point. *)
Theorem eval_hom_shape (self : GalCompleted A) (ths phs zs : list A)
  (MC : bool) :
  (length ths <> length zs ->
   eval_hom self ths phs zs true = Raise AssertionError) /\
  (length phs = length ths -> length zs = length ths ->
   exists ret,
     eval_hom self ths phs zs MC = Ok ret /\ length ret = length ths).
Proof.
  split.
  - intros Hne. unfold eval_hom.
    destruct (Nat.eqb_spec (length ths) (length zs)); [contradiction |].
    reflexivity.
  - intros Hp Hz. unfold eval_hom.
    rewrite <- Hz, Nat.eqb_refl, andb_false_r. cbn [negb].
    pose proof (eval_hom_loop_length self ths phs zs (cats_weights self)
                  (repeat azero (length zs)) azero Hp Hz) as Hlen.
    rewrite repeat_length in Hlen. specialize (Hlen Hz).
    destruct (eval_hom_loop _ _ _ _ _ _ _) as [ret tot]. cbn [fst] in Hlen.
    eexists. split; [reflexivity |]. now rewrite length_map, Hz.
Qed.
End EvalHomShape.
